(** * Brute-force and kd-tree backed k-nearest-neighbour search

    A shallow embedding of [matting/c/knn.c] (the batch driver [knn]) and of
    the reference scan [naive_knn] of [matting/c/tests.c].

    - C [float] is IEEE 754 binary32, modelled with the Standard Library's
      [spec_float] at precision 24 and maximal exponent 128.  Every
      operation rounds to nearest even in binary32 (no wider intermediate
      format, no fused multiply-add); [sqrt] is the binary64 one.
    - C [int] values are [Z]; loop counters that only ever run upwards from 0
      are [nat], so a negative count runs no iteration.
    - A C array is a [list]; a read past its end, undefined in C, yields
      [0.0f].  The four caller buffers are distinct objects, as in
      [test_knn], where each one comes from its own [malloc].
    - In [InMemory] the two functions run once more on pointers, as
      addresses into one memory where the buffers of a call may overlap.
    - kdtree.h and kdtree.c are not among the sources: [knn] is stated over
      the entry points it calls, and the index itself is modelled from the
      specification. *)

From Stdlib Require Import ZArith List Lia Bool SpecFloat Permutation Sorted.
Import ListNotations.
Open Scope Z_scope.

(** ** binary32 arithmetic *)

Definition float := spec_float.

Definition prec32 : Z := 24.
Definition emax32 : Z := 128.
Definition prec64 : Z := 53.
Definition emax64 : Z := 1024.

Definition fadd : float -> float -> float := SFadd prec32 emax32.
Definition fsub : float -> float -> float := SFsub prec32 emax32.
Definition fmul : float -> float -> float := SFmul prec32 emax32.
Definition fle : float -> float -> bool := SFleb.
Definition feq : float -> float -> bool := SFeqb.

(** The literals [0.0f] and [1e10f]; 1e10 = 9765625 * 2^10 and
    9765625 < 2^24, so the literal is exact. *)
Definition f0 : float := S754_zero false.
Definition f1e10 : float := S754_finite false 9765625 10.

(** The values 2, 4 and 1e6 (16000000 * 2^-4), used as coordinates of small
    inputs. *)
Definition f2 : float := S754_finite false 8388608 (-22).
Definition f4 : float := S754_finite false 8388608 (-21).
Definition f1e6 : float := S754_finite false 16000000 (-4).

(** [float] to [double] is exact and keeps the value [m * 2^e]; [double] to
    [float] rounds to nearest even. *)
Definition double_to_float (x : spec_float) : float :=
  match x with
  | S754_finite s m e => binary_normalize prec32 emax32 (cond_Zopp s (Zpos m)) e s
  | _ => x
  end.

(** [sqrt] of [math.h] works on [double]: the [float] argument is promoted,
    the square root is rounded to binary64, and the assignment to a [float]
    lvalue rounds once more. *)
Definition c_sqrt (x : float) : float :=
  double_to_float (SFsqrt prec64 emax64 x).

(** ** Arrays *)

Definition aget {A : Type} (d : A) (a : list A) (i : nat) : A := nth i a d.

Fixpoint aset {A : Type} (a : list A) (i : nat) (v : A) : list A :=
  match a, i with
  | [], _ => []
  | _ :: t, O => v :: t
  | h :: t, S i' => h :: aset t i' v
  end.

(** The macro [SWAP(T, a[i], a[j])]. *)
Definition swap {A : Type} (d : A) (a : list A) (i j : nat) : list A :=
  let temp := aget d a i in
  aset (aset a i (aget d a j)) j temp.

(** ** [naive_knn] *)

(** Lines 46-51: the squared distance between the point at offset [po] of
    [p] and the point at offset [qo] of [q]. *)
Definition sqdist (p : list float) (po : nat) (q : list float) (qo : nat)
    (point_dimension : nat) : float :=
  fold_left
    (fun dist c =>
       let d := fsub (aget f0 p (po + c)) (aget f0 q (qo + c)) in
       fadd dist (fmul d d))
    (seq 0 point_dimension) f0.

(** Lines 56-61: the insertion loop, from slot [c] downwards. *)
Fixpoint bubble (c : nat) (indices : list Z) (distances : list float)
    : list Z * list float :=
  match c with
  | O => (indices, distances)
  | S c1 =>
      if fle (aget f0 distances c1) (aget f0 distances c)
      then (indices, distances)
      else bubble c1 (swap 0 indices c1 c) (swap f0 distances c1 c)
  end.

(** Lines 36-39. Slot [k] of the two working arrays is not initialised by
    the source; it is written (lines 53-54) before it is ever read, so any
    value stands for it. *)
Definition init_indices (k : nat) : list Z := repeat (-1) k ++ [0].
Definition init_distances (k : nat) : list float := repeat f1e10 k ++ [f0].

(** Lines 44-61: one data point [j] against the query at offset [po]. *)
Definition scan_point (data_points query_points : list float) (po : nat)
    (point_dimension k : nat) (st : list Z * list float) (j : nat)
    : list Z * list float :=
  let dist := sqdist query_points po data_points (j * point_dimension)
                point_dimension in
  let indices := aset (fst st) k (Z.of_nat j) in
  let distances := aset (snd st) k dist in
  bubble k indices distances.

(** Lines 33-62: the working arrays after the scan for query [i]. *)
Definition scan_query (data_points query_points : list float)
    (n_data_points point_dimension k : nat) (i : nat)
    : list Z * list float :=
  fold_left
    (scan_point data_points query_points (i * point_dimension)
       point_dimension k)
    (seq 0 n_data_points)
    (init_indices k, init_distances k).

(** The caller's memory: the two coordinate buffers and the two output
    buffers.  The output fields hold the entries stored so far through the
    moving pointers [out_neighbor_indices] and [out_neighbor_distances]. *)
Record buffers : Type := mkBuffers {
  data_points : list float;
  query_points : list float;
  out_neighbor_indices : list Z;
  out_neighbor_distances : list float
}.

(** [*out_neighbor_indices++ = i; *out_neighbor_distances++ = d;] *)
Definition emit (b : buffers) (i : Z) (d : float) : buffers :=
  mkBuffers (data_points b) (query_points b)
    (out_neighbor_indices b ++ [i]) (out_neighbor_distances b ++ [d]).

(** Lines 32-68, one iteration of the outer loop. *)
Definition naive_query (n_data_points point_dimension k : nat)
    (b : buffers) (i : nat) : buffers :=
  let st := scan_query (data_points b) (query_points b)
              n_data_points point_dimension k i in
  fold_left
    (fun b c => emit b (aget 0 (fst st) c) (aget f0 (snd st) c))
    (seq 0 k) b.

Definition naive_knn (b : buffers)
    (n_data_points n_query_points point_dimension k : Z) : buffers :=
  fold_left
    (naive_query (Z.to_nat n_data_points) (Z.to_nat point_dimension)
       (Z.to_nat k))
    (seq 0 (Z.to_nat n_query_points)) b.

(** ** [knn] *)

(** [struct kdtree_neighbor] of kdtree.h, as [knn] uses it (lines 38-39). *)
Record kdtree_neighbor : Type := mkNeighbor {
  index : Z;
  distance : float
}.

Definition no_neighbor : kdtree_neighbor := mkNeighbor 0 f0.

Section Knn.

(** kdtree.h and kdtree.c are not among the sources: [knn] is stated over
    the three entry points it calls.  [kdtree_find_knn] receives the query
    as a buffer and an offset, and the working array; it hands back the
    working array and the count it stored through [&n_neighbors].
    [kdtree_free] and [free] leave nothing to observe. *)
Variable kdtree : Type.
Variable kdtree_init : list float -> list Z -> Z -> Z -> kdtree.
Variable kdtree_find_knn :
  kdtree -> list float -> nat -> list kdtree_neighbor -> Z ->
  list kdtree_neighbor * nat.

(** Lines 32-40, one iteration of the loop over the query points. *)
Definition knn_query (tree : kdtree) (point_dimension : nat) (k : Z)
    (st : buffers * list kdtree_neighbor) (i : nat)
    : buffers * list kdtree_neighbor :=
  let b := fst st in
  let query_point := (i * point_dimension)%nat in
  let found := kdtree_find_knn tree (query_points b) query_point (snd st) k in
  let neighbors := fst found in
  let n_neighbors := snd found in
  (fold_left
     (fun b j =>
        emit b (index (aget no_neighbor neighbors j))
               (c_sqrt (distance (aget no_neighbor neighbors j))))
     (seq 0 n_neighbors) b,
   neighbors).

Definition knn (b : buffers)
    (n_data_points n_query_points point_dimension k : Z) : buffers :=
  let indices := map Z.of_nat (seq 0 (Z.to_nat n_data_points)) in
  let tree := kdtree_init (data_points b) indices n_data_points
                point_dimension in
  let neighbors := repeat no_neighbor (Z.to_nat (k + 1)) in
  fst (fold_left (knn_query tree (Z.to_nat point_dimension) k)
         (seq 0 (Z.to_nat n_query_points)) (b, neighbors)).

End Knn.

(** ** The spatial index *)

Module SpatialIndex.

Definition flt : float -> float -> bool := SFltb.

(** Modelled from the spec: kdtree.c is missing; section 3 describes a node
    as an axis, a split value and two owned children, and a leaf as a slice
    of the index permutation. *)
Inductive kdnode : Type :=
| Leaf (bucket : list Z)
| Node (axis : nat) (split_value : float) (left right : kdnode).

(** Modelled from the spec: kdtree.c is missing; the index refers to the
    caller's points and owns the tree over their indices (section 3). *)
Record kdtree : Type := mkTree {
  tree_points : list float;
  tree_dimension : nat;
  tree_size : nat;
  tree_root : kdnode
}.

(** Modelled from the spec: kdtree.c is missing; the leaf bucket threshold
    is an implementation constant between 1 and 16 (section 3). *)
Definition leaf_bucket : nat := 2.

Definition coordinate (points : list float) (d : nat) (i : Z) (axis : nat)
    : float :=
  aget f0 points (Z.to_nat i * d + axis).

Fixpoint insert_coordinate (x : float) (l : list float) : list float :=
  match l with
  | [] => [x]
  | y :: l' => if fle x y then x :: l else y :: insert_coordinate x l'
  end.

(** Modelled from the spec: kdtree.c is missing; the split value is the
    median coordinate along the axis over the current range (section 4.1,
    step 2). *)
Definition median (points : list float) (d axis : nat) (range : list Z)
    : float :=
  nth (length range / 2)
      (fold_right insert_coordinate []
         (map (fun i => coordinate points d i axis) range))
      f0.

(** Modelled from the spec: kdtree.c is missing; section 4.1, steps 1 to 3.
    The axis is the depth modulo [d].  The spec gives no bound on the
    recursion; [fuel] caps its depth, and a range that is still too long
    when the cap is reached (splits that duplicates keep from shrinking it)
    ends as a leaf. *)
Fixpoint build_node (fuel : nat) (points : list float) (d depth : nat)
    (range : list Z) : kdnode :=
  match fuel with
  | O => Leaf range
  | S fuel' =>
      if (length range <=? leaf_bucket)%nat then Leaf range
      else
        let axis := (depth mod d)%nat in
        let split_value := median points d axis range in
        let parts :=
          partition (fun i => flt (coordinate points d i axis) split_value)
            range in
        Node axis split_value
          (build_node fuel' points d (S depth) (fst parts))
          (build_node fuel' points d (S depth) (snd parts))
  end.

(** Modelled from the spec: kdtree.c is missing; Build of section 4.1, with
    the empty index for [d <= 0] or a negative [n]. *)
Definition kdtree_init (points : list float) (indices : list Z) (n d : Z)
    : kdtree :=
  if (d <=? 0) || (n <? 0) then mkTree points 0 0 (Leaf [])
  else
    mkTree points (Z.to_nat d) (Z.to_nat n)
      (build_node (Z.to_nat n) points (Z.to_nat d) 0
         (firstn (Z.to_nat n) indices)).

(** Modelled from the spec: kdtree.c is missing; the sorted position of a
    new candidate, behind the entries of equal distance (section 4.2,
    Admit). *)
Fixpoint insert_candidate (x : kdtree_neighbor) (cs : list kdtree_neighbor)
    : list kdtree_neighbor :=
  match cs with
  | [] => [x]
  | y :: cs' =>
      if flt (distance x) (distance y) then x :: cs
      else y :: insert_candidate x cs'
  end.

(** Modelled from the spec: kdtree.c is missing; Admit of section 4.2: below
    capacity the candidate is inserted; at capacity it is inserted only when
    strictly below the current maximum, which is then evicted. *)
Definition admit_candidate (k : nat) (cs : list kdtree_neighbor) (x : kdtree_neighbor)
    : list kdtree_neighbor :=
  if (length cs <? k)%nat then insert_candidate x cs
  else if flt (distance x) (distance (last cs no_neighbor))
       then removelast (insert_candidate x cs)
       else cs.

(** Modelled from the spec: kdtree.c is missing; the descent of section 4.2:
    a leaf admits every point of its bucket; a node visits the side of the
    query first and the other side only when the candidate set is not full
    or the squared distance to the splitting plane is below the current
    worst candidate. *)
Fixpoint search (points : list float) (d : nat) (query : list float)
    (qo : nat) (k : nat) (t : kdnode) (cs : list kdtree_neighbor)
    : list kdtree_neighbor :=
  match t with
  | Leaf bucket =>
      fold_left
        (fun cs i =>
           admit_candidate k cs
             (mkNeighbor i (sqdist query qo points (Z.to_nat i * d) d)))
        bucket cs
  | Node axis split_value l r =>
      let qa := aget f0 query (qo + axis) in
      let near := if flt qa split_value then l else r in
      let far := if flt qa split_value then r else l in
      let cs1 := search points d query qo k near cs in
      let plane := fsub qa split_value in
      if (length cs1 <? k)%nat
         || flt (fmul plane plane) (distance (last cs1 no_neighbor))
      then search points d query qo k far cs1
      else cs1
  end.

(** Modelled from the spec: kdtree.c is missing; FindKNN of section 4.2.
    The candidates are stored at the front of the working array and counted
    through [n_neighbors]; their distances are still squared. *)
Definition kdtree_find_knn (t : kdtree) (query : list float) (qo : nat)
    (neighbors : list kdtree_neighbor) (k : Z)
    : list kdtree_neighbor * nat :=
  if (k <=? 0) || (tree_size t =? 0)%nat then (neighbors, O)
  else
    let cs := search (tree_points t) (tree_dimension t) query qo
                (Z.to_nat k) (tree_root t) [] in
    (cs ++ skipn (length cs) neighbors, length cs).

End SpatialIndex.

(** [knn] over the spatial index of the spec. *)
Definition knn_kdtree : buffers -> Z -> Z -> Z -> Z -> buffers :=
  knn SpatialIndex.kdtree SpatialIndex.kdtree_init
    SpatialIndex.kdtree_find_knn.

(** * The buffers in the caller's memory *)

(** [naive_knn] and [knn] once more, this time on pointers: the four
    buffers are addresses in the caller's memory and may overlap. *)
Module InMemory.

(** Memory as C reaches it through a [float *] and through an [int *]: two
    families of objects, each addressed by a [Z] that counts objects.  No
    object is accessed through both types. *)
Record memory : Type := mkMemory {
  floats : Z -> float;
  ints : Z -> Z
}.

Definition store_float (m : memory) (a : Z) (v : float) : memory :=
  mkMemory (fun b => if b =? a then v else floats m b) (ints m).

Definition store_int (m : memory) (a : Z) (v : Z) : memory :=
  mkMemory (floats m) (fun b => if b =? a then v else ints m b).

(** tests.c, lines 46-51, on the pointers [p] and [q]. *)
Definition sqdist (m : memory) (p q : Z) (point_dimension : nat) : float :=
  fold_left
    (fun dist c =>
       let d := fsub (floats m (p + Z.of_nat c)) (floats m (q + Z.of_nat c)) in
       fadd dist (fmul d d))
    (seq 0 point_dimension) f0.

(** tests.c, lines 44-61.  The working arrays are objects of the callee. *)
Definition scan_point (m : memory) (data_points p : Z)
    (point_dimension k : nat) (st : list Z * list float) (j : nat)
    : list Z * list float :=
  let q := data_points + Z.of_nat j * Z.of_nat point_dimension in
  let dist := sqdist m p q point_dimension in
  let indices := aset (fst st) k (Z.of_nat j) in
  let distances := aset (snd st) k dist in
  bubble k indices distances.

(** [*out_neighbor_indices++ = i; *out_neighbor_distances++ = d;] on the
    memory and the two moving pointers. *)
Definition emit (st : memory * Z * Z) (i : Z) (d : float) : memory * Z * Z :=
  let '(m, out_neighbor_indices, out_neighbor_distances) := st in
  (store_float (store_int m out_neighbor_indices i) out_neighbor_distances d,
   out_neighbor_indices + 1, out_neighbor_distances + 1).

(** tests.c, lines 32-68, one iteration of the outer loop: the scan reads
    the memory as the earlier iterations left it. *)
Definition naive_query (data_points query_points : Z)
    (n_data_points point_dimension k : nat) (st : memory * Z * Z) (i : nat)
    : memory * Z * Z :=
  let m := fst (fst st) in
  let p := query_points + Z.of_nat i * Z.of_nat point_dimension in
  let s := fold_left (scan_point m data_points p point_dimension k)
             (seq 0 n_data_points) (init_indices k, init_distances k) in
  fold_left
    (fun st c => emit st (aget 0 (fst s) c) (aget f0 (snd s) c))
    (seq 0 k) st.

Definition naive_knn (m : memory)
    (data_points query_points out_neighbor_indices out_neighbor_distances : Z)
    (n_data_points n_query_points point_dimension k : Z) : memory :=
  fst (fst
    (fold_left
       (naive_query data_points query_points (Z.to_nat n_data_points)
          (Z.to_nat point_dimension) (Z.to_nat k))
       (seq 0 (Z.to_nat n_query_points))
       (m, out_neighbor_indices, out_neighbor_distances))).

Section Knn.

(** The entry points of kdtree.c receive pointers into the caller's
    memory: each takes the memory and hands it back, as its C type lets it
    write through the pointers it is given.  [kdtree_free] receives the
    index only; it takes the memory too, for the pointers the index
    keeps. *)
Variable kdtree : Type.
Variable kdtree_init : memory -> Z -> list Z -> Z -> Z -> memory * kdtree.
Variable kdtree_find_knn :
  memory -> kdtree -> Z -> list kdtree_neighbor -> Z ->
  memory * (list kdtree_neighbor * nat).
Variable kdtree_free : memory -> kdtree -> memory.

(** knn.c, lines 32-40. *)
Definition knn_query (query_points : Z) (tree : kdtree)
    (point_dimension : nat) (k : Z)
    (st : memory * Z * Z * list kdtree_neighbor) (i : nat)
    : memory * Z * Z * list kdtree_neighbor :=
  let cursor := fst st in
  let query_point := query_points + Z.of_nat i * Z.of_nat point_dimension in
  let found :=
    kdtree_find_knn (fst (fst cursor)) tree query_point (snd st) k in
  let neighbors := fst (snd found) in
  let n_neighbors := snd (snd found) in
  (fold_left
     (fun st j =>
        emit st (index (aget no_neighbor neighbors j))
                (c_sqrt (distance (aget no_neighbor neighbors j))))
     (seq 0 n_neighbors)
     (fst found, snd (fst cursor), snd cursor),
   neighbors).

(** knn.c, lines 6-45. *)
Definition knn (m : memory)
    (data_points query_points out_neighbor_indices out_neighbor_distances : Z)
    (n_data_points n_query_points point_dimension k : Z) : memory :=
  let indices := map Z.of_nat (seq 0 (Z.to_nat n_data_points)) in
  let built := kdtree_init m data_points indices n_data_points
                 point_dimension in
  let tree := snd built in
  let neighbors := repeat no_neighbor (Z.to_nat (k + 1)) in
  let st :=
    fold_left
      (knn_query query_points tree (Z.to_nat point_dimension) k)
      (seq 0 (Z.to_nat n_query_points))
      (fst built, out_neighbor_indices, out_neighbor_distances, neighbors) in
  kdtree_free (fst (fst (fst st))) tree.

End Knn.

(** The [len] floats at [p], and the [len] ints at [p]. *)
Definition read (m : memory) (p : Z) (len : nat) : list float :=
  map (fun c => floats m (p + Z.of_nat c)) (seq 0 len).

Definition read_ints (m : memory) (p : Z) (len : nat) : list Z :=
  map (fun c => ints m (p + Z.of_nat c)) (seq 0 len).

(** Modelled from the spec: kdtree.c is missing; the index refers to the
    caller's points, which it never copies (section 3): the address of the
    points, with the tree over their indices. *)
Definition kdtree : Type := Z * SpatialIndex.kdtree.

(** Modelled from the spec: kdtree.c is missing; Build reads the caller's
    points and does not mutate them (section 4.1, side effects). *)
Definition kdtree_init (m : memory) (points : Z) (indices : list Z)
    (n d : Z) : memory * kdtree :=
  (m,
   (points,
    SpatialIndex.kdtree_init (read m points (Z.to_nat (n * d))) indices
      n d)).

(** Modelled from the spec: kdtree.c is missing; a query reads the query
    point and, through the index, the points as the memory holds them; the
    index is read-only once built (section 5). *)
Definition kdtree_find_knn (m : memory) (t : kdtree) (query : Z)
    (neighbors : list kdtree_neighbor) (k : Z)
    : memory * (list kdtree_neighbor * nat) :=
  let d := SpatialIndex.tree_dimension (snd t) in
  let n := SpatialIndex.tree_size (snd t) in
  let tree :=
    SpatialIndex.mkTree (read m (fst t) (n * d)) d n
      (SpatialIndex.tree_root (snd t)) in
  (m, SpatialIndex.kdtree_find_knn tree (read m query d) 0 neighbors k).

(** Modelled from the spec: kdtree.c is missing; the index is released and
    the caller's memory stays as it is. *)
Definition kdtree_free (m : memory) (t : kdtree) : memory := m.

(** [knn] over the index of the spec. *)
Definition knn_kdtree
    : memory -> Z -> Z -> Z -> Z -> Z -> Z -> Z -> Z -> memory :=
  knn kdtree kdtree_init kdtree_find_knn kdtree_free.

End InMemory.

(** * The vocabulary of the statements *)

(** ** Well-formed floats *)

(** Neither NaN nor negative: zero of either sign, a positive finite number
    or plus infinity. *)
Definition nonneg (x : float) : bool :=
  match x with
  | S754_zero _ => true
  | S754_infinity s => negb s
  | S754_nan => false
  | S754_finite s _ _ => negb s
  end.

(** Zero or a finite number. *)
Definition finite (x : float) : bool :=
  match x with
  | S754_zero _ | S754_finite _ _ _ => true
  | _ => false
  end.

Definition not_nan (x : float) : bool :=
  match x with
  | S754_nan => false
  | _ => true
  end.

(** What rounding can return: a zero, a finite number or an infinity, each
    with the sign it was given. *)
Definition signed_as (s : bool) (x : float) : Prop :=
  match x with
  | S754_zero s' | S754_infinity s' | S754_finite s' _ _ => s' = s
  | S754_nan => False
  end.

(** A [float] object holds a binary32 datum: the mantissa and exponent of a
    finite number fit the format. *)
Definition binary32 (x : float) : bool := valid_binary prec32 emax32 x.

(** Well-formed coordinates: binary32 data that are neither NaN nor
    infinite. *)
Definition all_finite (a : list float) : Prop :=
  Forall (fun x => binary32 x = true /\ finite x = true) a.


Definition infinity : float := S754_infinity false.
Definition nan : float := S754_nan.

(** ** The candidates of the scan *)

(** A candidate is an index with its squared distance. *)
Definition candidate : Type := Z * float.

Definition cle (x y : candidate) : bool := fle (snd x) (snd y).

(** [x] goes right behind the last entry that is [<=] it. *)
Fixpoint place (x : candidate) (l : list candidate) : list candidate :=
  match l with
  | [] => [x]
  | y :: l' =>
      if existsb (fun z => cle z x) l then y :: place x l' else x :: l
  end.

(** The first [k] slots of the working arrays, read as candidates. *)
Definition cands (k : nat) (st : list Z * list float) : list candidate :=
  firstn k (combine (fst st) (snd st)).

(** The squared distance of data point [j] to query [i], as lines 46-51
    compute it. *)
Definition dist_to (data query : list float) (d i j : nat) : float :=
  sqdist query (i * d) data (j * d) d.

(** The candidate list after the scan for query [i]: every data point in
    turn is placed and the list is cut back to [k] entries. *)
Definition naive_result (data query : list float) (n d k i : nat)
    : list candidate :=
  fold_left
    (fun cs j => firstn k (place (Z.of_nat j, dist_to data query d i j) cs))
    (seq 0 n) (repeat (-1, f1e10) k).

(** The order on candidates, as a relation. *)
Definition cle_rel (a b : candidate) : Prop := cle a b = true.

(** A candidate whose distance is neither NaN nor negative. *)
Definition okc (a : candidate) : Prop := nonneg (snd a) = true.

(** Lines 36-39: the entry every slot starts with. *)
Definition sentinel : candidate := (-1, f1e10).

(** Strictly below the initial distance: [1e10f <= d] is false. *)
Definition below (c : candidate) : bool := negb (fle f1e10 (snd c)).

(** Data point [j] as a candidate for query [i]. *)
Definition cand (data query : list float) (d i j : nat) : candidate :=
  (Z.of_nat j, dist_to data query d i j).

(** The candidates of the data points before [j]. *)
Definition seen (data query : list float) (d i j : nat) : list candidate :=
  map (cand data query d i) (seq 0 j).

(** What holds of the first [k] slots after any number of data points:
    they are sorted; they are the admitted candidates followed by the
    sentinels not yet pushed out; every admitted candidate is strictly below
    the sentinel distance and no further than any data point left out. *)
Record scan_inv (k : nat) (sn cs : list candidate) : Prop := mkScanInv {
  inv_length : length cs = k;
  inv_sorted : StronglySorted cle_rel cs;
  inv_ok : Forall okc cs;
  inv_shape :
    exists (reals : list candidate) (m : nat) (dropped : list candidate),
      cs = reals ++ repeat sentinel m /\
      Permutation (reals ++ dropped) sn /\
      Forall (fun c => below c = true) reals /\
      length reals = Nat.min k (length (filter below sn)) /\
      (forall a b, In a cs -> In b dropped -> cle a b = true)
}.

(** [a] may stand before [b]: it is no further, and at equal distance it
    has the lower index unless [b] is a sentinel. *)
Definition tie_rel (a b : candidate) : Prop :=
  cle a b = true /\ (cle b a = true -> fst a < fst b \/ fst b = -1).

(** ** Calls and their outputs *)

(** The caller's buffers at the call: nothing stored yet. *)
Definition inputs (data query : list float) : buffers :=
  mkBuffers data query [] [].

(** Entries [i*k .. i*k + k - 1] of an output buffer. *)
Definition block {A : Type} (k i : nat) (out : list A) : list A :=
  firstn k (skipn (i * k) out).


(** [m] holds in the two coordinate buffers of a call what [m0] holds
    there. *)
Definition same_points (m0 : InMemory.memory) (data_points query_points : Z)
    (n nq d : nat) (m : InMemory.memory) : Prop :=
  forall a,
    data_points <= a < data_points + Z.of_nat (n * d) \/
    query_points <= a < query_points + Z.of_nat (nq * d) ->
    InMemory.floats m a = InMemory.floats m0 a.

(** ** The candidates of the spatial index *)

(** The indices stored in a tree, leaf by leaf from left to right. *)
Fixpoint leaves (t : SpatialIndex.kdnode) : list Z :=
  match t with
  | SpatialIndex.Leaf bucket => bucket
  | SpatialIndex.Node _ _ l r => leaves l ++ leaves r
  end.

(** Data point [i] as a neighbour of the query. *)
Definition neighbor_of (points : list float) (d : nat) (query : list float)
    (qo : nat) (i : Z) : kdtree_neighbor :=
  mkNeighbor i (sqdist query qo points (Z.to_nat i * d) d).

(** The order of the candidate set: by squared distance. *)
Definition nle (a b : kdtree_neighbor) : Prop :=
  fle (distance a) (distance b) = true.

Definition nok (a : kdtree_neighbor) : Prop := nonneg (distance a) = true.

Definition sorted_set (cs : list kdtree_neighbor) : Prop :=
  StronglySorted nle cs /\ Forall nok cs.

(** The candidates [kdtree_find_knn] leaves at the front of the working
    array; the rest of the array plays no part. *)
Definition found (t : SpatialIndex.kdtree) (query : list float) (qo : nat)
    (k : Z) : list kdtree_neighbor :=
  if (k <=? 0) || (SpatialIndex.tree_size t =? 0)%nat then []
  else
    SpatialIndex.search (SpatialIndex.tree_points t)
      (SpatialIndex.tree_dimension t) query qo (Z.to_nat k)
      (SpatialIndex.tree_root t) [].

(** The candidates found for query [i] over [n] data points. *)
Definition knn_result (data query : list float) (n d k i : nat)
    : list kdtree_neighbor :=
  found
    (SpatialIndex.kdtree_init data (map Z.of_nat (seq 0 n)) (Z.of_nat n)
       (Z.of_nat d))
    query (i * d) (Z.of_nat k).

(** ** What the claims say of the outputs *)

(** The entries a call stored for query [i], [k] per query, as candidates. *)
Definition neighbors (k i : nat) (r : buffers) : list candidate :=
  combine (block k i (out_neighbor_indices r))
          (block k i (out_neighbor_distances r)).

Definition run_naive (data query : list float) (n nq d k : nat) : buffers :=
  naive_knn (inputs data query) (Z.of_nat n) (Z.of_nat nq) (Z.of_nat d)
    (Z.of_nat k).

Definition run_knn (data query : list float) (n nq d k : nat) : buffers :=
  knn_kdtree (inputs data query) (Z.of_nat n) (Z.of_nat nq) (Z.of_nat d)
    (Z.of_nat k).



(** The number of data points strictly below the sentinel distance. *)
Definition count_below (data query : list float) (n d i : nat) : nat :=
  length
    (filter (fun j => negb (fle f1e10 (dist_to data query d i j))) (seq 0 n)).

(** Non-decreasing, first to last. *)
Definition ascending (l : list float) : Prop :=
  StronglySorted (fun a b => fle a b = true) l.

(** ** Rounding and the square root, in closed form *)

(** A shift record as one number: four times the mantissa, plus the round
    bit and the sticky bit. *)
Definition code (r : shr_record) : Z :=
  4 * shr_m r + (if shr_r r then 2 else 0) + (if shr_s r then 1 else 0).

Definition halve (c : Z) : Z :=
  2 * (c / 4) + (if c mod 4 =? 0 then 0 else 1).

Definition rne_code (c : Z) : Z :=
  c / 4 +
  (if (c mod 4 =? 3) || ((c mod 4 =? 2) && Z.odd (c / 4)) then 1 else 0).

Definition halve_n (n : nat) (c : Z) : Z := Nat.iter n halve c.

(** The second half of [binary_round_aux]: the rounded mantissa is shifted
    once more if rounding carried, then checked for zero and overflow. *)
Definition finish (prec emax : Z) (s : bool) (M E : Z) : float :=
  let '(mrs, e) := shr_fexp prec emax M E loc_Exact in
  match shr_m mrs with
  | Z0 => S754_zero s
  | Zpos m =>
      if e <=? emax - prec then S754_finite s m e else S754_infinity s
  | Zneg _ => S754_nan
  end.

(** A binary64 number with the full 53 digits, [D * 2^E], rounded to
    binary32: 29 digits go; a carry out of the 24 kept moves the exponent
    once more. *)
Definition round32 (D E : Z) : float :=
  let M := rne_code (halve_n 29 (4 * D)) in
  if M <? 2 ^ 24 then S754_finite false (Z.to_pos M) (E + 29)
  else S754_finite false 8388608 (E + 30).

(** The exponent at which the binary64 square root of a binary32 number
    [m * 2^e] is computed, the radicand scaled to it, and the rounded
    53-digit mantissa. *)
Definition sqrt_exponent (m : positive) (e : Z) : Z :=
  (Zdigits2 (Zpos m) + e + 1) / 2 - 53.

Definition sqrt_radicand (m : positive) (e : Z) : Z :=
  Zpos m * 2 ^ (e - 2 * sqrt_exponent m e).

Definition sqrt_mantissa (m : positive) (e : Z) : Z :=
  let q := Z.sqrt (sqrt_radicand m e) in
  q + (if q <? sqrt_radicand m e - q * q then 1 else 0).

(** The normalised binary64 square root: mantissa and exponent. *)
Definition sqrt_double (m : positive) (e : Z) : Z * Z :=
  if sqrt_mantissa m e <? 2 ^ 53
  then (sqrt_mantissa m e, sqrt_exponent m e)
  else (2 ^ 52, sqrt_exponent m e + 1).

(** A distance: a binary32 datum that is neither NaN nor negative. *)
Definition distance32 (x : float) : Prop :=
  nonneg x = true /\ binary32 x = true.

(** * Facts about binary32 arithmetic *)

Section Rounding.

Variables prec emax : Z.

Lemma shr_1_nonneg (r : shr_record) :
  0 <= shr_m r -> 0 <= shr_m (shr_1 r).
Proof.
  destruct r as [m b1 b2]; simpl.
  destruct m as [|p|p]; simpl; try lia;
    destruct p; simpl; lia.
Qed.

Lemma iter_pos_shr_1_nonneg (p : positive) :
  forall r, 0 <= shr_m r -> 0 <= shr_m (iter_pos shr_1 p r).
Proof.
  induction p as [p IH|p IH|]; intros r Hr; simpl.
  - apply IH, IH, shr_1_nonneg, Hr.
  - apply IH, IH, Hr.
  - apply shr_1_nonneg, Hr.
Qed.

Lemma shr_record_of_loc_m (m : Z) (l : location) :
  shr_m (shr_record_of_loc m l) = m.
Proof. destruct l as [|[]]; reflexivity. Qed.

Lemma shr_fexp_nonneg (m e : Z) (l : location) :
  0 <= m -> 0 <= shr_m (fst (shr_fexp prec emax m e l)).
Proof.
  intros Hm. unfold shr_fexp, shr.
  destruct (fexp prec emax (Zdigits2 m + e) - e) as [|p|p]; simpl;
    try (rewrite shr_record_of_loc_m; exact Hm).
  apply iter_pos_shr_1_nonneg. rewrite shr_record_of_loc_m. exact Hm.
Qed.

Lemma round_nearest_even_nonneg (m : Z) (l : location) :
  0 <= m -> 0 <= round_nearest_even m l.
Proof.
  intros Hm. destruct l as [|[]]; simpl; try lia.
  destruct (Z.even m); lia.
Qed.

Lemma binary_round_aux_signed (s : bool) (m e : Z) (l : location) :
  0 <= m -> signed_as s (binary_round_aux prec emax s m e l).
Proof.
  intros Hm. unfold binary_round_aux.
  pose proof (shr_fexp_nonneg m e l Hm) as H1.
  destruct (shr_fexp prec emax m e l) as [mrs' e'] eqn:E1. simpl in H1.
  pose proof (shr_fexp_nonneg
                (round_nearest_even (shr_m mrs') (loc_of_shr_record mrs'))
                e' loc_Exact
                (round_nearest_even_nonneg _ _ H1)) as H2.
  destruct (shr_fexp prec emax _ e' loc_Exact) as [mrs'' e''] eqn:E2.
  simpl in H2.
  destruct (shr_m mrs'') as [|p|p]; simpl; try reflexivity; try lia.
  destruct (e'' <=? emax - prec); reflexivity.
Qed.

Lemma binary_round_signed (s : bool) (m : positive) (e : Z) :
  signed_as s (binary_round prec emax s m e).
Proof.
  unfold binary_round.
  destruct (shl_align m e _) as [mz ez].
  apply binary_round_aux_signed. lia.
Qed.

Lemma binary_normalize_not_nan (m e : Z) (sz : bool) :
  not_nan (binary_normalize prec emax m e sz) = true.
Proof.
  destruct m as [|p|p]; simpl; try reflexivity.
  - pose proof (binary_round_signed false p e) as H.
    destruct (binary_round prec emax false p e); simpl in *; tauto.
  - pose proof (binary_round_signed true p e) as H.
    destruct (binary_round prec emax true p e); simpl in *; tauto.
Qed.

Lemma signed_false_nonneg (x : float) : signed_as false x -> nonneg x = true.
Proof. destruct x as [s|s| |s m e]; simpl; intros H; subst; tauto. Qed.

Lemma SFsub_finite_not_nan (x y : float) :
  finite x = true -> finite y = true ->
  not_nan (SFsub prec emax x y) = true.
Proof.
  destruct x as [sx|sx| |sx mx ex], y as [sy|sy| |sy my ey];
    simpl; intros Hx Hy; try discriminate; try reflexivity.
  - destruct sx, sy; reflexivity.
  - apply binary_normalize_not_nan.
Qed.

Lemma SFmul_square_nonneg (x : float) :
  not_nan x = true -> nonneg (SFmul prec emax x x) = true.
Proof.
  destruct x as [s|s| |s m e]; simpl; intros Hx; try discriminate.
  - reflexivity.
  - destruct s; reflexivity.
  - apply signed_false_nonneg.
    replace (xorb s s) with false by (destruct s; reflexivity).
    apply binary_round_aux_signed. lia.
Qed.

Lemma SFadd_nonneg (x y : float) :
  nonneg x = true -> nonneg y = true ->
  nonneg (SFadd prec emax x y) = true.
Proof.
  destruct x as [sx|sx| |sx mx ex], y as [sy|sy| |sy my ey];
    simpl; intros Hx Hy; try discriminate; try assumption;
    try (destruct sx, sy; simpl in *; try discriminate; reflexivity).
  destruct sx, sy; simpl in *; try discriminate.
  apply signed_false_nonneg.
  destruct (shl_align mx ex (Z.min ex ey)) as [m1 e1].
  destruct (shl_align my ey (Z.min ex ey)) as [m2 e2]. simpl.
  apply binary_round_signed.
Qed.

End Rounding.

(** ** The order on distances *)

Lemma fle_finite (m1 : positive) (e1 : Z) (m2 : positive) (e2 : Z) :
  fle (S754_finite false m1 e1) (S754_finite false m2 e2) = true <->
  e1 < e2 \/ (e1 = e2 /\ (m1 <= m2)%positive).
Proof.
  unfold fle, SFleb, SFcompare.
  change (Pos.compare_cont Eq m1 m2) with (Pos.compare m1 m2).
  destruct (Z.compare_spec e1 e2) as [He|He|He];
    try (split; [intros _; lia | reflexivity]);
    try (split; [discriminate | lia]).
  destruct (Pos.compare_spec m1 m2) as [Hm|Hm|Hm];
    try (split; [intros _; lia | reflexivity]).
  split; [discriminate | lia].
Qed.

Lemma fle_total (a b : float) :
  nonneg a = true -> nonneg b = true -> fle a b = false -> fle b a = true.
Proof.
  destruct a as [sa|sa| |sa ma ea], b as [sb|sb| |sb mb eb];
    simpl; intros Ha Hb; try discriminate;
    try (destruct sa; try discriminate); try (destruct sb; try discriminate);
    try (cbv; congruence).
  intros H. apply fle_finite.
  destruct (fle (S754_finite false ma ea) (S754_finite false mb eb)) eqn:E;
    [discriminate |].
  destruct (Z.lt_trichotomy ea eb) as [Hlt|[Heq|Hgt]]; try lia.
  - assert (E' : fle (S754_finite false ma ea) (S754_finite false mb eb) = true)
      by (apply fle_finite; lia).
    congruence.
  - destruct (Pos.leb_spec ma mb) as [Hm|Hm]; [| lia].
    assert (E' : fle (S754_finite false ma ea) (S754_finite false mb eb) = true)
      by (apply fle_finite; lia).
    congruence.
Qed.

Lemma fle_trans (a b c : float) :
  nonneg a = true -> nonneg b = true -> nonneg c = true ->
  fle a b = true -> fle b c = true -> fle a c = true.
Proof.
  destruct a as [sa|sa| |sa ma ea], b as [sb|sb| |sb mb eb],
           c as [sc|sc| |sc mc ec];
    simpl; intros Ha Hb Hc; try discriminate;
    try (destruct sa; try discriminate); try (destruct sb; try discriminate);
    try (destruct sc; try discriminate);
    try (cbv; congruence).
  rewrite !fle_finite. lia.
Qed.

(** [feq] is C's [==]: both [<=] hold. *)
Lemma feq_fle (a b : float) :
  feq a b = true <-> fle a b = true /\ fle b a = true.
Proof.
  unfold feq, fle, SFeqb, SFleb.
  destruct a as [sa|sa| |sa ma ea], b as [sb|sb| |sb mb eb]; simpl;
    try (destruct sa); try (destruct sb); simpl;
    try change (Pos.compare_cont Eq ma mb) with (Pos.compare ma mb);
    try change (Pos.compare_cont Eq mb ma) with (Pos.compare mb ma);
    try (destruct (Z.compare_spec ea eb); destruct (Z.compare_spec eb ea);
         try lia;
         destruct (Pos.compare_spec ma mb); destruct (Pos.compare_spec mb ma);
         try lia; simpl);
    (split; [intros Hq; try discriminate Hq; split; reflexivity
            | intros [Hq1 Hq2]; try discriminate Hq1; try discriminate Hq2;
              reflexivity]).
Qed.

Lemma aget_binary32_finite (a : list float) (i : nat) :
  all_finite a ->
  binary32 (aget f0 a i) = true /\ finite (aget f0 a i) = true.
Proof.
  intros Ha. unfold aget.
  destruct (Nat.lt_ge_cases i (length a)) as [Hi|Hi].
  - unfold all_finite in Ha. rewrite Forall_forall in Ha.
    apply Ha, nth_In, Hi.
  - rewrite nth_overflow by exact Hi. split; reflexivity.
Qed.

Lemma aget_finite (a : list float) (i : nat) :
  all_finite a -> finite (aget f0 a i) = true.
Proof. intros Ha. apply aget_binary32_finite, Ha. Qed.

Lemma fold_left_invariant {A B : Type} (P : A -> Prop) (f : A -> B -> A)
    (l : list B) :
  (forall a b, P a -> In b l -> P (f a b)) ->
  forall a, P a -> P (fold_left f l a).
Proof.
  induction l as [|b l IH]; intros Hf a Ha; simpl; [exact Ha |].
  apply IH.
  - intros a' b' Ha' Hb'. apply Hf; [exact Ha' | right; exact Hb'].
  - apply Hf; [exact Ha | left; reflexivity].
Qed.

(** The squared distance of finite points is never NaN and never
    negative; it may overflow to plus infinity. *)
Lemma sqdist_nonneg (p : list float) (po : nat) (q : list float) (qo : nat)
    (d : nat) :
  all_finite p -> all_finite q -> nonneg (sqdist p po q qo d) = true.
Proof.
  intros Hp Hq. unfold sqdist.
  apply fold_left_invariant with (P := fun x => nonneg x = true);
    [| reflexivity].
  intros dist c Hdist _. unfold fadd, fmul, fsub.
  apply SFadd_nonneg; [exact Hdist |].
  apply SFmul_square_nonneg, SFsub_finite_not_nan; apply aget_finite;
    assumption.
Qed.

(** * Arrays as lists *)

Lemma aget_middle {A : Type} (d : A) (l : list A) (x : A) (r : list A) :
  aget d (l ++ x :: r) (length l) = x.
Proof. unfold aget. apply nth_middle. Qed.

Lemma aset_middle {A : Type} (l : list A) (x v : A) (r : list A) :
  aset (l ++ x :: r) (length l) v = l ++ v :: r.
Proof. induction l as [|h t IH]; simpl; [reflexivity | now rewrite IH]. Qed.

Lemma aset_middle_at {A : Type} (l : list A) (x v : A) (r : list A)
    (c : nat) :
  length l = c -> aset (l ++ x :: r) c v = l ++ v :: r.
Proof. intros <-. apply aset_middle. Qed.

Lemma swap_adjacent {A : Type} (d : A) (l : list A) (x y : A) (r : list A)
    (c : nat) :
  length l = c -> swap d (l ++ x :: y :: r) c (S c) = l ++ y :: x :: r.
Proof.
  intros <-. unfold swap.
  replace (aget d (l ++ x :: y :: r) (S (length l))) with y.
  - rewrite aget_middle, aset_middle.
    replace (l ++ y :: y :: r) with ((l ++ [y]) ++ y :: r)
      by (rewrite <- app_assoc; reflexivity).
    replace (S (length l)) with (length (l ++ [y]))
      by (rewrite length_app; simpl; lia).
    rewrite aset_middle, <- app_assoc. reflexivity.
  - replace (l ++ x :: y :: r) with ((l ++ [x]) ++ y :: r)
      by (rewrite <- app_assoc; reflexivity).
    replace (S (length l)) with (length (l ++ [x]))
      by (rewrite length_app; simpl; lia).
    now rewrite aget_middle.
Qed.

Lemma snoc_cases {A : Type} (l : list A) (n : nat) :
  length l = S n -> exists l' x, l = l' ++ [x] /\ length l' = n.
Proof.
  intros H. destruct (exists_last (l := l)) as [l' [x Hx]].
  - intros ->; discriminate.
  - exists l', x. split; [exact Hx |].
    subst l. rewrite length_app in H. simpl in H. lia.
Qed.

(** * The insertion loop as a list insertion *)

Lemma place_snoc_le (x y : candidate) (l : list candidate) :
  cle y x = true -> place x (l ++ [y]) = l ++ [y; x].
Proof.
  intros H. induction l as [|a l IH]; simpl.
  - rewrite H. reflexivity.
  - rewrite existsb_app. simpl. rewrite H, IH.
    rewrite !orb_true_r. reflexivity.
Qed.

Lemma place_snoc_gt (x y : candidate) (l : list candidate) :
  cle y x = false -> place x (l ++ [y]) = place x l ++ [y].
Proof.
  intros H. induction l as [|a l IH]; simpl.
  - rewrite H. reflexivity.
  - rewrite existsb_app. simpl. rewrite H, IH, !orb_false_r.
    destruct (cle a x || existsb (fun z => cle z x) l); reflexivity.
Qed.

Lemma combine_snoc {A B : Type} (l : list A) (l' : list B) (a : A) (b : B) :
  length l = length l' ->
  combine (l ++ [a]) (l' ++ [b]) = combine l l' ++ [(a, b)].
Proof.
  revert l'; induction l as [|h t IH]; intros [|h' t'] H; simpl in *;
    try discriminate; [reflexivity |].
  rewrite IH by lia. reflexivity.
Qed.

Lemma combine_app_eq {A B : Type} (l1 l2 : list A) (r1 r2 : list B) :
  length l1 = length r1 ->
  combine (l1 ++ l2) (r1 ++ r2) = combine l1 r1 ++ combine l2 r2.
Proof.
  revert r1; induction l1 as [|h t IH]; intros [|h' t'] H; simpl in *;
    try discriminate; [reflexivity |].
  rewrite IH by lia. reflexivity.
Qed.

Lemma bubble_place (c : nat) :
  forall (Il : list Z) (Dl : list float) (i : Z) (d : float)
         (Ir : list Z) (Dr : list float),
    length Il = c -> length Dl = c -> length Ir = length Dr ->
    let r := bubble c (Il ++ i :: Ir) (Dl ++ d :: Dr) in
    length (fst r) = length (Il ++ i :: Ir) /\
    length (snd r) = length (Dl ++ d :: Dr) /\
    combine (fst r) (snd r) =
      place (i, d) (combine Il Dl) ++ combine Ir Dr.
Proof.
  induction c as [|c IH]; intros Il Dl i d Ir Dr HI HD Hr.
  - destruct Il, Dl; try discriminate. simpl. auto.
  - destruct (snoc_cases Il c HI) as [Il' [i' [-> HI']]].
    destruct (snoc_cases Dl c HD) as [Dl' [d' [-> HD']]].
    cbn zeta. simpl bubble.
    rewrite <- !app_assoc. simpl app.
    replace (aget f0 (Dl' ++ d' :: d :: Dr) c) with d'
      by (rewrite <- HD'; now rewrite aget_middle).
    replace (aget f0 (Dl' ++ d' :: d :: Dr) (S c)) with d.
    2:{ replace (Dl' ++ d' :: d :: Dr) with ((Dl' ++ [d']) ++ d :: Dr)
          by (rewrite <- app_assoc; reflexivity).
        replace (S c) with (length (Dl' ++ [d']))
          by (rewrite length_app; simpl; lia).
        now rewrite aget_middle. }
    rewrite combine_snoc by congruence.
    destruct (fle d' d) eqn:E.
    + simpl fst; simpl snd. repeat split.
      rewrite place_snoc_le by exact E.
      rewrite combine_app_eq by congruence. simpl.
      rewrite <- app_assoc. reflexivity.
    + rewrite (swap_adjacent 0 Il' i' i Ir c HI').
      rewrite (swap_adjacent f0 Dl' d' d Dr c HD').
      destruct (IH Il' Dl' i d (i' :: Ir) (d' :: Dr) HI' HD')
        as [H1 [H2 H3]]; [simpl; congruence |].
      cbn zeta in H1, H2, H3.
      rewrite H1, H2, H3, !length_app. simpl.
      repeat split.
      rewrite place_snoc_gt by exact E.
      rewrite <- app_assoc. reflexivity.
Qed.

Lemma scan_point_cands (data query : list float) (d k i : nat)
    (st : list Z * list float) (j : nat) :
  length (fst st) = S k -> length (snd st) = S k ->
  let st' := scan_point data query (i * d) d k st j in
  length (fst st') = S k /\ length (snd st') = S k /\
  combine (fst st') (snd st') =
    place (Z.of_nat j, dist_to data query d i j) (cands k st).
Proof.
  intros HI HD.
  destruct (snoc_cases _ _ HI) as [I0 [i0 [EI HI0]]].
  destruct (snoc_cases _ _ HD) as [D0 [d0 [ED HD0]]].
  unfold scan_point, cands. rewrite EI, ED.
  rewrite (aset_middle_at I0 i0 (Z.of_nat j) [] k HI0).
  rewrite (aset_middle_at D0 d0 _ [] k HD0).
  destruct (bubble_place k I0 D0 (Z.of_nat j)
              (dist_to data query d i j) [] [] HI0 HD0 eq_refl)
    as [H1 [H2 H3]].
  cbn zeta in *. unfold dist_to in *.
  rewrite H1, H2, H3, !length_app. simpl.
  repeat split; try lia.
  rewrite app_nil_r, combine_snoc by congruence.
  rewrite firstn_app, firstn_all2 by (rewrite length_combine; lia).
  replace (k - length (combine I0 D0))%nat with O
    by (rewrite length_combine; lia).
  simpl. rewrite app_nil_r. reflexivity.
Qed.

Lemma scan_fold_cands (data query : list float) (d k i : nat)
    (l : list nat) :
  forall st : list Z * list float,
    length (fst st) = S k -> length (snd st) = S k ->
    let st' := fold_left (scan_point data query (i * d) d k) l st in
    length (fst st') = S k /\ length (snd st') = S k /\
    cands k st' =
      fold_left
        (fun cs j =>
           firstn k (place (Z.of_nat j, dist_to data query d i j) cs))
        l (cands k st).
Proof.
  induction l as [|j l IH]; intros st HI HD; simpl.
  - auto.
  - destruct (scan_point_cands data query d k i st j HI HD) as [H1 [H2 H3]].
    cbn zeta in *.
    destruct (IH _ H1 H2) as [G1 [G2 G3]]. cbn zeta in *.
    repeat split; try assumption.
    rewrite G3. unfold cands at 1. rewrite H3. reflexivity.
Qed.

Lemma combine_repeat_snoc (k : nat) :
  firstn k (combine (init_indices k) (init_distances k)) =
  repeat (-1, f1e10) k.
Proof.
  unfold init_indices, init_distances.
  rewrite combine_app_eq by (rewrite !repeat_length; reflexivity).
  rewrite firstn_app.
  assert (L : length (combine (repeat (-1) k) (repeat f1e10 k)) = k)
    by (rewrite length_combine, !repeat_length; lia).
  rewrite L, Nat.sub_diag. simpl. rewrite app_nil_r.
  rewrite firstn_all2 by lia.
  clear L. induction k as [|k IH]; simpl; [reflexivity | now rewrite IH].
Qed.

Lemma scan_query_cands (data query : list float) (n d k i : nat) :
  let st := scan_query data query n d k i in
  length (fst st) = S k /\ length (snd st) = S k /\
  cands k st = naive_result data query n d k i.
Proof.
  unfold scan_query, naive_result.
  destruct (scan_fold_cands data query d k i (seq 0 n)
              (init_indices k, init_distances k)) as [H1 [H2 H3]].
  - unfold init_indices. simpl. rewrite length_app, repeat_length.
    simpl; lia.
  - unfold init_distances. simpl. rewrite length_app, repeat_length.
    simpl; lia.
  - cbn zeta in *. repeat split; try assumption.
    rewrite H3. unfold cands. simpl fst; simpl snd.
    rewrite combine_repeat_snoc. reflexivity.
Qed.

(** ** The output buffers *)

Lemma emit_loop {T : Type} (f : T -> Z) (g : T -> float) (l : list T) :
  forall b : buffers,
    fold_left (fun b c => emit b (f c) (g c)) l b =
    mkBuffers (data_points b) (query_points b)
      (out_neighbor_indices b ++ map f l)
      (out_neighbor_distances b ++ map g l).
Proof.
  induction l as [|c l IH]; intros b; simpl.
  - rewrite !app_nil_r. destruct b; reflexivity.
  - rewrite IH. simpl. rewrite <- !app_assoc. reflexivity.
Qed.

Lemma map_aget_seq {A : Type} (d : A) (a : list A) (k : nat) :
  (k <= length a)%nat -> map (aget d a) (seq 0 k) = firstn k a.
Proof.
  revert k. induction a as [|h t IH]; intros k Hk; simpl in *.
  - assert (k = O) by lia. subst. reflexivity.
  - destruct k as [|k]; simpl; [reflexivity |].
    rewrite <- seq_shift, map_map. simpl.
    f_equal. apply IH. lia.
Qed.

Lemma firstn_combine {A B : Type} (k : nat) (l : list A) (l' : list B) :
  firstn k (combine l l') = combine (firstn k l) (firstn k l').
Proof.
  revert l l'; induction k as [|k IH]; intros [|h t] [|h' t']; simpl;
    try reflexivity.
  now rewrite IH.
Qed.

Lemma map_fst_combine {A B : Type} (l : list A) (l' : list B) :
  length l = length l' -> map fst (combine l l') = l.
Proof.
  revert l'; induction l as [|h t IH]; intros [|h' t'] H; simpl in *;
    try discriminate; [reflexivity |].
  rewrite IH by lia. reflexivity.
Qed.

Lemma map_snd_combine {A B : Type} (l : list A) (l' : list B) :
  length l = length l' -> map snd (combine l l') = l'.
Proof.
  revert l'; induction l as [|h t IH]; intros [|h' t'] H; simpl in *;
    try discriminate; [reflexivity |].
  rewrite IH by lia. reflexivity.
Qed.

Lemma naive_query_spec (n d k : nat) (b : buffers) (i : nat) :
  naive_query n d k b i =
  mkBuffers (data_points b) (query_points b)
    (out_neighbor_indices b ++
       map fst (naive_result (data_points b) (query_points b) n d k i))
    (out_neighbor_distances b ++
       map snd (naive_result (data_points b) (query_points b) n d k i)).
Proof.
  unfold naive_query. rewrite emit_loop.
  destruct (scan_query_cands (data_points b) (query_points b) n d k i)
    as [H1 [H2 H3]].
  cbn zeta in *. rewrite <- H3. unfold cands.
  rewrite firstn_combine.
  rewrite map_fst_combine, map_snd_combine
    by (rewrite !length_firstn; lia).
  rewrite !map_aget_seq by lia. reflexivity.
Qed.

Lemma naive_knn_fold (n d k : nat) (l : list nat) :
  forall b : buffers,
    fold_left (naive_query n d k) l b =
    mkBuffers (data_points b) (query_points b)
      (out_neighbor_indices b ++
         flat_map
           (fun i =>
              map fst (naive_result (data_points b) (query_points b) n d k i))
           l)
      (out_neighbor_distances b ++
         flat_map
           (fun i =>
              map snd (naive_result (data_points b) (query_points b) n d k i))
           l).
Proof.
  induction l as [|i l IH]; intros b; simpl.
  - rewrite !app_nil_r. destruct b; reflexivity.
  - rewrite IH, naive_query_spec. simpl.
    rewrite <- !app_assoc. reflexivity.
Qed.

(** * Sorted candidate lists *)

Section StronglySortedFacts.

Context {A : Type} (R : A -> A -> Prop).

Lemma StronglySorted_app_iff (l1 l2 : list A) :
  StronglySorted R (l1 ++ l2) <->
  StronglySorted R l1 /\ StronglySorted R l2 /\
  Forall (fun a => Forall (R a) l2) l1.
Proof.
  induction l1 as [|a l1 IH]; simpl.
  - split.
    + intros H. repeat split; [constructor | exact H | constructor].
    + intros [_ [H _]]. exact H.
  - split.
    + intros H. apply StronglySorted_inv in H. destruct H as [H1 H2].
      apply IH in H1. destruct H1 as [G1 [G2 G3]].
      apply Forall_app in H2. destruct H2 as [F1 F2].
      repeat split; [constructor | | constructor]; assumption.
    + intros [H1 [H2 H3]].
      apply StronglySorted_inv in H1. destruct H1 as [G1 G2].
      inversion H3 as [|? ? F1 F2]; subst.
      constructor.
      * apply IH. repeat split; assumption.
      * apply Forall_app. split; assumption.
Qed.

Lemma StronglySorted_firstn (n : nat) (l : list A) :
  StronglySorted R l -> StronglySorted R (firstn n l).
Proof.
  intros H. rewrite <- (firstn_skipn n l) in H.
  apply StronglySorted_app_iff in H. tauto.
Qed.

Lemma StronglySorted_cut (n : nat) (l : list A) (a b : A) :
  StronglySorted R l -> In a (firstn n l) -> In b (skipn n l) -> R a b.
Proof.
  intros H Ha Hb. rewrite <- (firstn_skipn n l) in H.
  apply StronglySorted_app_iff in H. destruct H as [_ [_ H]].
  rewrite Forall_forall in H. specialize (H a Ha).
  rewrite Forall_forall in H. exact (H b Hb).
Qed.

Lemma StronglySorted_repeat (a : A) (n : nat) :
  R a a -> StronglySorted R (repeat a n).
Proof.
  intros Ha. induction n as [|n IH]; simpl; constructor; [exact IH |].
  apply Forall_forall. intros x Hx. apply repeat_spec in Hx. now subst.
Qed.

End StronglySortedFacts.

Lemma cle_trans (a b c : candidate) :
  okc a -> okc b -> okc c -> cle a b = true -> cle b c = true ->
  cle a c = true.
Proof. unfold okc, cle. apply fle_trans. Qed.

Lemma cle_total (a b : candidate) :
  okc a -> okc b -> cle a b = false -> cle b a = true.
Proof. unfold okc, cle. apply fle_total. Qed.

Lemma place_length (x : candidate) (l : list candidate) :
  length (place x l) = S (length l).
Proof.
  induction l as [|y l IH]; simpl; [reflexivity |].
  destruct (cle y x || existsb (fun z => cle z x) l); simpl;
    [now rewrite IH | reflexivity].
Qed.

Lemma place_perm (x : candidate) (l : list candidate) :
  Permutation (place x l) (x :: l).
Proof.
  induction l as [|y l IH]; simpl; [apply Permutation_refl |].
  destruct (cle y x || existsb (fun z => cle z x) l).
  - rewrite IH. apply perm_swap.
  - apply Permutation_refl.
Qed.

(** On a sorted list the place of [x] is behind every entry [<= x] and
    before every entry that is not. *)
Lemma place_split (x : candidate) (l : list candidate) :
  StronglySorted cle_rel l -> Forall okc l -> okc x ->
  exists l1 l2,
    l = l1 ++ l2 /\ place x l = l1 ++ x :: l2 /\
    Forall (fun y => cle y x = true) l1 /\
    Forall (fun y => cle y x = false) l2.
Proof.
  intros Hs Hok Hx. induction l as [|y l IH]; simpl.
  - exists [], []. repeat split; constructor.
  - apply StronglySorted_inv in Hs. destruct Hs as [Hs Hy].
    inversion Hok as [|? ? Hoky Hokl]; subst.
    destruct (IH Hs Hokl) as [l1 [l2 [E1 [E2 [F1 F2]]]]].
    destruct (cle y x || existsb (fun z => cle z x) l) eqn:E.
    + exists (y :: l1), l2. rewrite E1 at 1. rewrite E2.
      repeat split; [| exact F2].
      constructor; [| exact F1].
      destruct (cle y x) eqn:Eyx; [reflexivity |]. simpl in E.
      apply existsb_exists in E. destruct E as [z [Hz Hzx]].
      rewrite Forall_forall in Hy, Hokl.
      rewrite <- Eyx. apply cle_trans with z; auto.
      apply Hy, Hz.
    + exists [], (y :: l). apply orb_false_elim in E. destruct E as [Ey El].
      repeat split; [constructor |].
      constructor; [exact Ey |].
      apply Forall_forall. intros z Hz.
      destruct (cle z x) eqn:Ez; [| reflexivity].
      assert (existsb (fun z => cle z x) l = true)
        by (apply existsb_exists; exists z; auto).
      congruence.
Qed.

(** Placing keeps any order that agrees with [cle] around [x]. *)
Lemma place_sorted (R : candidate -> candidate -> Prop) (x : candidate)
    (l : list candidate) :
  StronglySorted cle_rel l -> Forall okc l -> okc x ->
  StronglySorted R l ->
  (forall y, In y l -> cle y x = true -> R y x) ->
  (forall y, In y l -> cle y x = false -> R x y) ->
  StronglySorted R (place x l).
Proof.
  intros Hs Hok Hx HR Hle Hgt.
  destruct (place_split x l Hs Hok Hx) as [l1 [l2 [E1 [E2 [F1 F2]]]]].
  rewrite E2. subst l.
  apply StronglySorted_app_iff in HR. destruct HR as [R1 [R2 R3]].
  apply StronglySorted_app_iff. repeat split; [exact R1 | |].
  - constructor; [exact R2 |].
    rewrite Forall_forall in *. intros y Hy.
    apply Hgt; [apply in_or_app; right; exact Hy | apply F2, Hy].
  - rewrite Forall_forall in *. intros y Hy. constructor; [| apply R3, Hy].
    apply Hle; [apply in_or_app; left; exact Hy | apply F1, Hy].
Qed.

Lemma place_sorted_cle (x : candidate) (l : list candidate) :
  StronglySorted cle_rel l -> Forall okc l -> okc x ->
  StronglySorted cle_rel (place x l).
Proof.
  intros Hs Hok Hx. apply place_sorted; try assumption.
  - intros y _ H. exact H.
  - intros y Hy H. rewrite Forall_forall in Hok.
    apply cle_total; auto.
Qed.

Lemma place_ok (x : candidate) (l : list candidate) :
  Forall okc l -> okc x -> Forall okc (place x l).
Proof.
  intros Hl Hx. rewrite Forall_forall in *. intros y Hy.
  apply (Permutation_in _ (place_perm x l)) in Hy.
  destruct Hy as [<-|Hy]; auto.
Qed.

Lemma place_behind (x : candidate) (l : list candidate) (s : candidate)
    (m : nat) :
  cle s x = false ->
  place x (l ++ repeat s m) = place x l ++ repeat s m.
Proof.
  intros H. induction m as [|m IH]; simpl.
  - now rewrite !app_nil_r.
  - rewrite repeat_cons, !app_assoc, place_snoc_gt by exact H.
    now rewrite IH.
Qed.

Lemma in_firstn {A : Type} (n : nat) (l : list A) (a : A) :
  In a (firstn n l) -> In a l.
Proof.
  intros H. rewrite <- (firstn_skipn n l). apply in_or_app. now left.
Qed.

Lemma in_skipn {A : Type} (n : nat) (l : list A) (a : A) :
  In a (skipn n l) -> In a l.
Proof.
  intros H. rewrite <- (firstn_skipn n l). apply in_or_app. now right.
Qed.

Lemma place_last (x : candidate) (l : list candidate) :
  Forall (fun y => cle y x = true) l -> place x l = l ++ [x].
Proof.
  induction 1 as [|y l Hy Hl IH]; simpl; [reflexivity |].
  rewrite Hy, IH. reflexivity.
Qed.

(** * The scan of [naive_knn], one query *)

Lemma naive_result_S (data query : list float) (n d k i : nat) :
  naive_result data query (S n) d k i =
  firstn k (place (cand data query d i n) (naive_result data query n d k i)).
Proof.
  unfold naive_result. rewrite seq_S, fold_left_app. reflexivity.
Qed.

Lemma seen_S (data query : list float) (d i j : nat) :
  seen data query d i (S j) = seen data query d i j ++ [cand data query d i j].
Proof. unfold seen. rewrite seq_S, map_app. reflexivity. Qed.

Lemma sentinel_ok : okc sentinel.
Proof. reflexivity. Qed.

Lemma scan_inv_init (k : nat) : scan_inv k [] (repeat sentinel k).
Proof.
  constructor.
  - apply repeat_length.
  - apply StronglySorted_repeat. reflexivity.
  - apply Forall_forall. intros x Hx. apply repeat_spec in Hx. subst.
    exact sentinel_ok.
  - exists [], k, []. simpl. repeat split; try constructor.
    + rewrite Nat.min_0_r. reflexivity.
    + intros a b _ [].
Qed.

Lemma below_le_sentinel (a : candidate) :
  okc a -> below a = true -> cle a sentinel = true.
Proof.
  intros Ha Hb. apply cle_total; [exact sentinel_ok | exact Ha |].
  unfold below in Hb. apply negb_true_iff in Hb. exact Hb.
Qed.

Lemma scan_inv_step (k : nat) (sn cs : list candidate) (x : candidate) :
  Forall okc sn -> okc x -> scan_inv k sn cs ->
  scan_inv k (sn ++ [x]) (firstn k (place x cs)).
Proof.
  intros Hsn Hx [Hlen Hsort Hok [reals [m [dropped [E [HP [Hb [Hc Hd]]]]]]]].
  assert (HsP : StronglySorted cle_rel (place x cs))
    by (apply place_sorted_cle; assumption).
  assert (HokP : Forall okc (place x cs)) by (apply place_ok; assumption).
  assert (Hokd : forall b, In b dropped -> okc b).
  { intros b Hin. rewrite Forall_forall in Hsn. apply Hsn.
    apply (Permutation_in _ HP). apply in_or_app. now right. }
  constructor.
  - rewrite length_firstn, place_length. lia.
  - apply StronglySorted_firstn, HsP.
  - rewrite Forall_forall in *. intros a Ha. apply HokP.
    eapply in_firstn, Ha.
  - destruct (below x) eqn:Ex.
    + (* [x] is admitted *)
      assert (Hsx : cle sentinel x = false)
        by (unfold below in Ex; apply negb_true_iff in Ex; exact Ex).
      assert (HPl : place x cs = place x reals ++ repeat sentinel m)
        by (rewrite E; apply place_behind, Hsx).
      assert (Hcnt : length (filter below (sn ++ [x])) =
                     S (length (filter below sn))).
      { rewrite filter_app, length_app. simpl. rewrite Ex. simpl. lia. }
      assert (Hlr : (length reals + m = k)%nat).
      { rewrite <- Hlen, E, length_app, repeat_length. reflexivity. }
      destruct m as [|m].
      * (* no sentinel left: the last entry falls off *)
        rewrite app_nil_r in E, HPl. subst cs.
        exists (firstn k (place x reals)), O,
               (skipn k (place x reals) ++ dropped).
        rewrite app_nil_r. repeat split.
        -- rewrite app_assoc, firstn_skipn.
           rewrite (place_perm x reals). simpl.
           rewrite <- Permutation_cons_append.
           apply perm_skip, HP.
        -- rewrite Forall_forall in *. intros a Ha.
           apply in_firstn in Ha.
           apply (Permutation_in _ (place_perm x reals)) in Ha.
           destruct Ha as [<-|Ha]; auto.
        -- rewrite length_firstn, place_length, Hcnt. lia.
        -- intros a b Ha Hin. apply in_app_or in Hin.
           destruct Hin as [Hin|Hin].
           ++ exact (StronglySorted_cut cle_rel k _ a b HsP Ha Hin).
           ++ assert (Hlk : length (skipn k (place x reals)) = 1%nat)
                by (rewrite length_skipn, place_length; lia).
              destruct (skipn k (place x reals)) as [|e [|? ?]] eqn:Es;
                try discriminate.
              assert (Hae : cle a e = true).
              { apply (StronglySorted_cut cle_rel k _ a e HsP Ha).
                rewrite Es. now left. }
              assert (He : In e (x :: reals)).
              { apply (Permutation_in _ (place_perm x reals)).
                apply in_skipn with k. rewrite Es. now left. }
              assert (HPf : Permutation (firstn k (place x reals) ++ [e])
                              (x :: reals)).
              { rewrite <- Es, firstn_skipn. apply place_perm. }
              destruct He as [He|He].
              ** subst e. rewrite <- Permutation_cons_append in HPf.
                 apply Permutation_cons_inv in HPf.
                 apply Hd; [| exact Hin].
                 apply (Permutation_in _ HPf), Ha.
              ** rewrite Forall_forall in HokP, Hok.
                 apply cle_trans with e; auto.
                 apply HokP. eapply in_firstn, Ha.
      * (* a sentinel falls off *)
        exists (place x reals), m, dropped.
        assert (Hs : In sentinel cs).
        { rewrite E. apply in_or_app. right. simpl. now left. }
        repeat split.
        -- rewrite HPl. simpl repeat. rewrite repeat_cons, app_assoc.
           rewrite firstn_app.
           replace (k - length (place x reals ++ repeat sentinel m))%nat
             with O
             by (rewrite length_app, place_length, repeat_length; lia).
           simpl. rewrite app_nil_r. apply firstn_all2.
           rewrite length_app, place_length, repeat_length. lia.
        -- rewrite (place_perm x reals). simpl.
           rewrite <- Permutation_cons_append.
           apply perm_skip, HP.
        -- rewrite Forall_forall in *. intros a Ha.
           apply (Permutation_in _ (place_perm x reals)) in Ha.
           destruct Ha as [<-|Ha]; auto.
        -- rewrite place_length, Hcnt. lia.
        -- intros a b Ha Hin. apply in_firstn in Ha.
           rewrite HPl in Ha. apply in_app_or in Ha.
           destruct Ha as [Ha|Ha].
           ++ apply (Permutation_in _ (place_perm x reals)) in Ha.
              destruct Ha as [<-|Ha].
              ** apply cle_trans with sentinel; auto using sentinel_ok.
                 apply cle_total; auto using sentinel_ok.
              ** apply Hd; [| exact Hin].
                 rewrite E. apply in_or_app. now left.
           ++ apply repeat_spec in Ha. subst a. apply Hd; assumption.
    + (* [x] is not admitted *)
      assert (Hsx : cle sentinel x = true)
        by (unfold below in Ex; apply negb_false_iff in Ex; exact Ex).
      assert (Hall : Forall (fun y => cle y x = true) cs).
      { apply Forall_forall. intros a Ha.
        rewrite Forall_forall in Hok, Hb.
        apply cle_trans with sentinel; auto using sentinel_ok.
        rewrite E in Ha. apply in_app_or in Ha. destruct Ha as [Ha|Ha].
        - apply below_le_sentinel; auto.
          apply Hok. rewrite E. apply in_or_app. now left.
        - apply repeat_spec in Ha. subst a. reflexivity. }
      rewrite (place_last x cs Hall).
      rewrite firstn_app, Hlen, Nat.sub_diag. simpl. rewrite app_nil_r.
      rewrite firstn_all2 by lia.
      exists reals, m, (x :: dropped). repeat split.
      * exact E.
      * rewrite <- Permutation_middle, <- Permutation_cons_append.
        apply perm_skip, HP.
      * exact Hb.
      * rewrite filter_app, length_app. simpl. rewrite Ex. simpl.
        rewrite Nat.add_0_r. exact Hc.
      * intros a b Ha [<-|Hin]; [| now apply Hd].
        rewrite Forall_forall in Hall. now apply Hall.
Qed.

Lemma cand_ok (data query : list float) (d i j : nat) :
  all_finite data -> all_finite query -> okc (cand data query d i j).
Proof.
  intros Hd Hq. unfold okc, cand, dist_to. simpl.
  apply sqdist_nonneg; assumption.
Qed.

Lemma seen_ok (data query : list float) (d i j : nat) :
  all_finite data -> all_finite query -> Forall okc (seen data query d i j).
Proof.
  intros Hd Hq. apply Forall_forall. intros c Hc.
  unfold seen in Hc. apply in_map_iff in Hc. destruct Hc as [j' [<- _]].
  apply cand_ok; assumption.
Qed.

Lemma naive_result_inv (data query : list float) (n d k i : nat) :
  all_finite data -> all_finite query ->
  scan_inv k (seen data query d i n) (naive_result data query n d k i).
Proof.
  intros Hd Hq. induction n as [|n IH].
  - apply scan_inv_init.
  - rewrite naive_result_S, seen_S.
    apply scan_inv_step; [apply seen_ok | apply cand_ok | exact IH];
      assumption.
Qed.

(** The part of the shape that needs no assumption on the coordinates:
    behind at most one entry per data point, only sentinels. *)
Lemma naive_result_shape (data query : list float) (n d k i : nat) :
  exists (reals : list candidate) (m : nat),
    naive_result data query n d k i = reals ++ repeat sentinel m /\
    (length reals <= n)%nat /\ (length reals + m = k)%nat.
Proof.
  induction n as [|n [reals [m [E [Hn Hk]]]]].
  - exists [], k. simpl. repeat split; lia.
  - rewrite naive_result_S, E.
    set (x := cand data query d i n).
    destruct (cle sentinel x) eqn:Ex.
    + destruct m as [|m].
      * exists (firstn k (place x reals)), O.
        rewrite !app_nil_r. repeat split.
        -- rewrite length_firstn, place_length. lia.
        -- rewrite length_firstn, place_length. lia.
      * exists reals, (S m). repeat split; try lia.
        assert (Hc : reals ++ repeat sentinel (S m) =
                     (reals ++ repeat sentinel m) ++ [sentinel])
          by (simpl repeat; rewrite repeat_cons, app_assoc; reflexivity).
        rewrite Hc, place_snoc_le by exact Ex.
        change [sentinel; x] with ([sentinel] ++ [x]).
        rewrite app_assoc, firstn_app.
        replace (k - length ((reals ++ repeat sentinel m) ++ [sentinel]))%nat
          with O
          by (rewrite !length_app, repeat_length; simpl; lia).
        simpl. rewrite app_nil_r.
        apply firstn_all2.
        rewrite !length_app, repeat_length; simpl; lia.
    + rewrite place_behind by exact Ex.
      destruct m as [|m].
      * exists (firstn k (place x reals)), O.
        rewrite !app_nil_r. repeat split.
        -- rewrite length_firstn, place_length. lia.
        -- rewrite length_firstn, place_length. lia.
      * exists (place x reals), m. rewrite place_length.
        repeat split; try lia.
        simpl repeat. rewrite repeat_cons, app_assoc, firstn_app.
        replace (k - length (place x reals ++ repeat sentinel m))%nat
          with O
          by (rewrite length_app, place_length, repeat_length; lia).
        simpl. rewrite app_nil_r. apply firstn_all2.
        rewrite length_app, place_length, repeat_length. lia.
Qed.

Lemma naive_result_length (data query : list float) (n d k i : nat) :
  length (naive_result data query n d k i) = k.
Proof.
  destruct (naive_result_shape data query n d k i) as [r [m [E [_ H]]]].
  rewrite E, length_app, repeat_length. exact H.
Qed.

(** ** Ties *)

Lemma naive_result_ties (data query : list float) (n d k i : nat) :
  all_finite data -> all_finite query ->
  StronglySorted tie_rel (naive_result data query n d k i) /\
  Forall (fun c => fst c < Z.of_nat n) (naive_result data query n d k i).
Proof.
  intros Hd Hq. induction n as [|n [IH1 IH2]].
  - split.
    + apply StronglySorted_repeat. split; [reflexivity | now right].
    + apply Forall_forall. intros c Hc. apply repeat_spec in Hc.
      subst c. simpl. lia.
  - rewrite naive_result_S.
    destruct (naive_result_inv data query n d k i Hd Hq)
      as [_ Hsort Hok _].
    pose proof (cand_ok data query d i n Hd Hq) as Hx.
    split.
    + apply StronglySorted_firstn. apply place_sorted; try assumption.
      * intros y Hy Hle. split; [exact Hle |]. intros _. left.
        rewrite Forall_forall in IH2. apply (IH2 y Hy).
      * intros y Hy Hgt. rewrite Forall_forall in Hok. split.
        -- apply cle_total; auto.
        -- intros H. congruence.
    + apply Forall_forall. intros c Hc. apply in_firstn in Hc.
      apply (Permutation_in _ (place_perm _ _)) in Hc.
      destruct Hc as [<-|Hc].
      * simpl. lia.
      * rewrite Forall_forall in IH2. specialize (IH2 c Hc). lia.
Qed.

(** ** The output of [naive_knn], query by query *)

Lemma block_flat_map {A B : Type} (k : nat) (f : B -> list A)
    (l : list B) (d : B) :
  (forall x, length (f x) = k) ->
  forall i, (i < length l)%nat ->
    block k i (flat_map f l) = f (nth i l d).
Proof.
  intros Hf. unfold block. induction l as [|x l IH]; intros i Hi;
    simpl in *; [lia |].
  destruct i as [|i]; simpl.
  - rewrite firstn_app, Hf, Nat.sub_diag. simpl.
    rewrite app_nil_r. apply firstn_all2. rewrite Hf. lia.
  - rewrite skipn_app, Hf.
    rewrite skipn_all2 by (rewrite Hf; lia). simpl.
    replace (k + i * k - k)%nat with (i * k)%nat by lia.
    apply IH. lia.
Qed.

Lemma naive_knn_spec (data query : list float) (n nq d k : nat) :
  naive_knn (inputs data query) (Z.of_nat n) (Z.of_nat nq) (Z.of_nat d)
    (Z.of_nat k) =
  mkBuffers data query
    (flat_map (fun i => map fst (naive_result data query n d k i))
       (seq 0 nq))
    (flat_map (fun i => map snd (naive_result data query n d k i))
       (seq 0 nq)).
Proof.
  unfold naive_knn. rewrite !Nat2Z.id, naive_knn_fold. reflexivity.
Qed.

Lemma naive_knn_block (data query : list float) (n nq d k i : nat) :
  (i < nq)%nat ->
  let r := naive_knn (inputs data query) (Z.of_nat n) (Z.of_nat nq)
             (Z.of_nat d) (Z.of_nat k) in
  block k i (out_neighbor_indices r) =
    map fst (naive_result data query n d k i) /\
  block k i (out_neighbor_distances r) =
    map snd (naive_result data query n d k i).
Proof.
  intros Hi. cbn zeta. rewrite naive_knn_spec. simpl. split.
  - rewrite (block_flat_map k _ (seq 0 nq) O).
    + rewrite seq_nth by exact Hi. reflexivity.
    + intros x. rewrite length_map. apply naive_result_length.
    + rewrite length_seq. exact Hi.
  - rewrite (block_flat_map k _ (seq 0 nq) O).
    + rewrite seq_nth by exact Hi. reflexivity.
    + intros x. rewrite length_map. apply naive_result_length.
    + rewrite length_seq. exact Hi.
Qed.

(** * The spatial index: what a search returns *)

Module SpatialIndexFacts.
Import SpatialIndex.

Lemma partition_perm {A : Type} (f : A -> bool) (l : list A) :
  Permutation (fst (partition f l) ++ snd (partition f l)) l.
Proof.
  induction l as [|a l IH]; simpl; [constructor |].
  destruct (partition f l) as [l1 l2]. simpl in *.
  destruct (f a); simpl.
  - now constructor.
  - rewrite <- Permutation_middle. now constructor.
Qed.

(** Section 3 of the spec, the invariant of the index: the leaves hold the
    range, every index once. *)
Lemma build_node_leaves (fuel : nat) (points : list float) (d : nat) :
  forall (depth : nat) (range : list Z),
    Permutation (leaves (build_node fuel points d depth range)) range.
Proof.
  induction fuel as [|fuel IH]; intros depth range; simpl.
  - apply Permutation_refl.
  - destruct (length range <=? leaf_bucket)%nat; simpl.
    + apply Permutation_refl.
    + rewrite !IH. apply partition_perm.
Qed.

Lemma insert_candidate_perm (x : kdtree_neighbor)
    (cs : list kdtree_neighbor) :
  Permutation (insert_candidate x cs) (x :: cs).
Proof.
  induction cs as [|y cs IH]; simpl; [apply Permutation_refl |].
  destruct (flt (distance x) (distance y)).
  - apply Permutation_refl.
  - rewrite IH. apply perm_swap.
Qed.

Lemma insert_candidate_length (x : kdtree_neighbor)
    (cs : list kdtree_neighbor) :
  length (insert_candidate x cs) = S (length cs).
Proof. apply (Permutation_length (insert_candidate_perm x cs)). Qed.

Lemma removelast_length {A : Type} (l : list A) :
  length (removelast l) = pred (length l).
Proof.
  induction l as [|a l IH]; simpl; [reflexivity |].
  destruct l as [|b l]; simpl in *; [reflexivity | now rewrite IH].
Qed.

Lemma in_removelast {A : Type} (l : list A) (a : A) :
  In a (removelast l) -> In a l.
Proof.
  induction l as [|b l IH]; simpl; [tauto |].
  destruct l as [|c l]; simpl in *; [tauto |].
  intros [H|H]; [now left | right; apply IH, H].
Qed.

Lemma admit_length (k : nat) (cs : list kdtree_neighbor)
    (x : kdtree_neighbor) :
  (length cs <= k)%nat ->
  length (admit_candidate k cs x) = Nat.min k (S (length cs)).
Proof.
  intros H. unfold admit_candidate.
  destruct (length cs <? k)%nat eqn:E.
  - apply Nat.ltb_lt in E. rewrite insert_candidate_length. lia.
  - apply Nat.ltb_ge in E.
    destruct (flt (distance x) (distance (last cs no_neighbor))).
    + rewrite removelast_length, insert_candidate_length. simpl. lia.
    + lia.
Qed.

Lemma admit_in (k : nat) (cs : list kdtree_neighbor)
    (x y : kdtree_neighbor) :
  In y (admit_candidate k cs x) -> y = x \/ In y cs.
Proof.
  unfold admit_candidate.
  destruct (length cs <? k)%nat.
  - intros H. apply (Permutation_in _ (insert_candidate_perm x cs)) in H.
    destruct H; auto.
  - destruct (flt (distance x) (distance (last cs no_neighbor))).
    + intros H. apply in_removelast in H.
      apply (Permutation_in _ (insert_candidate_perm x cs)) in H.
      destruct H; auto.
    + auto.
Qed.

Section Search.

Variables (points : list float) (d : nat) (query : list float) (qo k : nat).

Lemma leaf_length (bucket : list Z) :
  forall cs : list kdtree_neighbor,
    (length cs <= k)%nat ->
    length (fold_left (fun cs i => admit_candidate k cs (neighbor_of points d query qo i)) bucket cs) =
    Nat.min k (length cs + length bucket).
Proof.
  induction bucket as [|i bucket IH]; intros cs H; simpl.
  - lia.
  - rewrite IH; rewrite admit_length by exact H; lia.
Qed.

(** The search fills the candidate set as far as the tree reaches: a side
    is only skipped when the set is already full. *)
Lemma search_length (t : kdnode) :
  forall cs : list kdtree_neighbor,
    (length cs <= k)%nat ->
    length (search points d query qo k t cs) =
    Nat.min k (length cs + length (leaves t)).
Proof.
  induction t as [bucket|axis split_value l IHl r IHr]; intros cs H.
  - apply leaf_length, H.
  - simpl. rewrite length_app.
    destruct (flt (aget f0 query (qo + axis)) split_value).
    + specialize (IHl cs H).
      destruct ((length (search points d query qo k l cs) <? k)%nat
                || _) eqn:E.
      * rewrite IHr by (rewrite IHl; lia). rewrite IHl. lia.
      * apply orb_false_elim in E. destruct E as [E _].
        apply Nat.ltb_ge in E. lia.
    + specialize (IHr cs H).
      destruct ((length (search points d query qo k r cs) <? k)%nat
                || _) eqn:E.
      * rewrite IHl by (rewrite IHr; lia). rewrite IHr. lia.
      * apply orb_false_elim in E. destruct E as [E _].
        apply Nat.ltb_ge in E. lia.
Qed.

(** Whatever holds of the candidates at the start and of every data point
    of the tree holds of the result. *)
Lemma search_forall (P : kdtree_neighbor -> Prop) (t : kdnode) :
  (forall i, In i (leaves t) -> P (neighbor_of points d query qo i)) ->
  forall cs : list kdtree_neighbor,
    Forall P cs -> Forall P (search points d query qo k t cs).
Proof.
  induction t as [bucket|axis split_value l IHl r IHr]; intros Ht cs Hcs.
  - simpl in *. revert cs Hcs.
    induction bucket as [|i bucket IH]; intros cs Hcs; simpl;
      [exact Hcs |].
    apply IH.
    + intros j Hj. apply Ht. now right.
    + apply Forall_forall. intros y Hy. apply admit_in in Hy.
      destruct Hy as [->|Hy].
      * apply Ht. now left.
      * rewrite Forall_forall in Hcs. now apply Hcs.
  - simpl in *.
    assert (Hl : forall i, In i (leaves l) -> P (neighbor_of points d query qo i))
      by (intros i Hi; apply Ht, in_or_app; now left).
    assert (Hr : forall i, In i (leaves r) -> P (neighbor_of points d query qo i))
      by (intros i Hi; apply Ht, in_or_app; now right).
    destruct (flt (aget f0 query (qo + axis)) split_value).
    + destruct (_ || _); auto.
    + destruct (_ || _); auto.
Qed.

End Search.

End SpatialIndexFacts.

Module SpatialIndexOrder.
Import SpatialIndex SpatialIndexFacts.

Lemma flt_fle (x y : float) :
  nonneg x = true -> nonneg y = true -> flt x y = negb (fle y x).
Proof.
  unfold flt, fle, SFltb, SFleb.
  destruct x as [sx|sx| |sx mx ex], y as [sy|sy| |sy my ey]; simpl;
    intros Hx Hy; try discriminate;
    try (destruct sx; try discriminate); try (destruct sy; try discriminate);
    try reflexivity.
  change (Pos.compare_cont Eq mx my) with (Pos.compare mx my);
  change (Pos.compare_cont Eq my mx) with (Pos.compare my mx).
  destruct (Z.compare_spec ex ey); destruct (Z.compare_spec ey ex);
    try lia; try reflexivity.
  destruct (Pos.compare_spec mx my); destruct (Pos.compare_spec my mx);
    try lia; reflexivity.
Qed.

Lemma insert_candidate_sorted (x : kdtree_neighbor)
    (cs : list kdtree_neighbor) :
  nok x -> Forall nok cs -> StronglySorted nle cs ->
  StronglySorted nle (insert_candidate x cs).
Proof.
  intros Hx Hok Hs. induction cs as [|y cs IH]; simpl.
  - repeat constructor.
  - apply StronglySorted_inv in Hs. destruct Hs as [Hs Hy].
    inversion Hok as [|? ? Hoky Hokcs]; subst.
    destruct (flt (distance x) (distance y)) eqn:E.
    + rewrite flt_fle in E by assumption. apply negb_true_iff in E.
      assert (Hxy : nle x y) by (apply fle_total; assumption).
      constructor; [constructor; assumption |].
      constructor; [exact Hxy |].
      rewrite Forall_forall in *. intros z Hz.
      apply fle_trans with (distance y); auto.
      * apply Hokcs, Hz.
      * apply Hy, Hz.
    + rewrite flt_fle in E by assumption. apply negb_false_iff in E.
      constructor; [apply IH; assumption |].
      rewrite Forall_forall in *. intros z Hz.
      apply (Permutation_in _ (insert_candidate_perm x cs)) in Hz.
      destruct Hz as [<-|Hz]; [exact E | apply Hy, Hz].
Qed.

Lemma removelast_sorted {A : Type} (R : A -> A -> Prop) (l : list A) :
  StronglySorted R l -> StronglySorted R (removelast l).
Proof.
  intros H. destruct l as [|a l]; [exact H |].
  rewrite (app_removelast_last a (l := a :: l)) in H by discriminate.
  apply StronglySorted_app_iff in H. tauto.
Qed.

Lemma admit_sorted (k : nat) (cs : list kdtree_neighbor)
    (x : kdtree_neighbor) :
  nok x -> sorted_set cs -> sorted_set (admit_candidate k cs x).
Proof.
  intros Hx [Hs Hok]. split.
  - unfold admit_candidate. destruct (length cs <? k)%nat.
    + apply insert_candidate_sorted; assumption.
    + destruct (flt _ _); [| exact Hs].
      apply removelast_sorted, insert_candidate_sorted; assumption.
  - apply Forall_forall. intros y Hy. apply admit_in in Hy.
    destruct Hy as [->|Hy]; [exact Hx |].
    rewrite Forall_forall in Hok. apply Hok, Hy.
Qed.

Lemma neighbor_of_ok (points : list float) (d : nat) (query : list float)
    (qo : nat) (i : Z) :
  all_finite points -> all_finite query ->
  nok (neighbor_of points d query qo i).
Proof.
  intros Hp Hq. unfold nok, neighbor_of. simpl.
  apply sqdist_nonneg; assumption.
Qed.

(** The candidate set stays sorted by squared distance through the whole
    descent. *)
Lemma search_sorted (points : list float) (d : nat) (query : list float)
    (qo k : nat) (t : kdnode) :
  all_finite points -> all_finite query ->
  forall cs : list kdtree_neighbor,
    sorted_set cs -> sorted_set (search points d query qo k t cs).
Proof.
  intros Hp Hq.
  induction t as [bucket|axis split_value l IHl r IHr]; intros cs Hcs.
  - simpl. revert cs Hcs.
    induction bucket as [|i bucket IH]; intros cs Hcs; simpl;
      [exact Hcs |].
    apply IH, admit_sorted; [| exact Hcs].
    apply neighbor_of_ok; assumption.
  - simpl.
    destruct (flt (aget f0 query (qo + axis)) split_value).
    + destruct (_ || _); auto.
    + destruct (_ || _); auto.
Qed.

End SpatialIndexOrder.

(** * The output of [knn], query by query *)

Lemma kdtree_find_knn_found (t : SpatialIndex.kdtree) (query : list float)
    (qo : nat) (neighbors : list kdtree_neighbor) (k : Z) :
  SpatialIndex.kdtree_find_knn t query qo neighbors k =
  (found t query qo k ++ skipn (length (found t query qo k)) neighbors,
   length (found t query qo k)).
Proof.
  unfold SpatialIndex.kdtree_find_knn, found.
  destruct ((k <=? 0) || (SpatialIndex.tree_size t =? 0)%nat); reflexivity.
Qed.

Lemma map_aget_front {A B : Type} (f : A -> B) (d : A) (l r : list A) :
  map (fun j => f (aget d (l ++ r) j)) (seq 0 (length l)) = map f l.
Proof.
  rewrite <- (map_map (aget d (l ++ r)) f).
  rewrite map_aget_seq by (rewrite length_app; lia).
  rewrite firstn_app, Nat.sub_diag, firstn_all. simpl.
  now rewrite app_nil_r.
Qed.

Lemma knn_query_spec (t : SpatialIndex.kdtree) (d : nat) (k : Z)
    (b : buffers) (neighbors : list kdtree_neighbor) (i : nat) :
  let cs := found t (query_points b) (i * d) k in
  knn_query SpatialIndex.kdtree SpatialIndex.kdtree_find_knn t d k
    (b, neighbors) i =
  (mkBuffers (data_points b) (query_points b)
     (out_neighbor_indices b ++ map index cs)
     (out_neighbor_distances b ++ map (fun c => c_sqrt (distance c)) cs),
   cs ++ skipn (length cs) neighbors).
Proof.
  cbn zeta. unfold knn_query. simpl fst; simpl snd.
  rewrite kdtree_find_knn_found. simpl fst; simpl snd.
  rewrite emit_loop.
  rewrite (map_aget_front index), (map_aget_front (fun c => c_sqrt (distance c))).
  reflexivity.
Qed.

Lemma knn_fold (t : SpatialIndex.kdtree) (d : nat) (k : Z) (l : list nat) :
  forall (b : buffers) (neighbors : list kdtree_neighbor),
    fst (fold_left
           (knn_query SpatialIndex.kdtree SpatialIndex.kdtree_find_knn t d k)
           l (b, neighbors)) =
    mkBuffers (data_points b) (query_points b)
      (out_neighbor_indices b ++
         flat_map (fun i => map index (found t (query_points b) (i * d) k)) l)
      (out_neighbor_distances b ++
         flat_map
           (fun i =>
              map (fun c => c_sqrt (distance c))
                (found t (query_points b) (i * d) k))
           l).
Proof.
  induction l as [|i l IH]; intros b neighbors; simpl.
  - rewrite !app_nil_r. destruct b; reflexivity.
  - rewrite knn_query_spec, IH. simpl.
    rewrite <- !app_assoc. reflexivity.
Qed.

Lemma knn_kdtree_spec (data query : list float) (n nq d k : nat) :
  knn_kdtree (inputs data query) (Z.of_nat n) (Z.of_nat nq) (Z.of_nat d)
    (Z.of_nat k) =
  mkBuffers data query
    (flat_map (fun i => map index (knn_result data query n d k i))
       (seq 0 nq))
    (flat_map
       (fun i =>
          map (fun c => c_sqrt (distance c)) (knn_result data query n d k i))
       (seq 0 nq)).
Proof.
  unfold knn_kdtree, knn. rewrite !Nat2Z.id, knn_fold. reflexivity.
Qed.

Lemma tree_of_init (data : list float) (n d : nat) :
  (1 <= d)%nat ->
  let t := SpatialIndex.kdtree_init data (map Z.of_nat (seq 0 n))
             (Z.of_nat n) (Z.of_nat d) in
  SpatialIndex.tree_points t = data /\
  SpatialIndex.tree_dimension t = d /\
  SpatialIndex.tree_size t = n /\
  Permutation (leaves (SpatialIndex.tree_root t))
    (map Z.of_nat (seq 0 n)).
Proof.
  intros Hd. cbn zeta. unfold SpatialIndex.kdtree_init.
  replace (Z.of_nat d <=? 0) with false by (symmetry; apply Z.leb_gt; lia).
  replace (Z.of_nat n <? 0) with false by (symmetry; apply Z.ltb_ge; lia).
  simpl. rewrite !Nat2Z.id. repeat split.
  rewrite SpatialIndexFacts.build_node_leaves.
  rewrite firstn_all2 by (rewrite length_map, length_seq; lia).
  apply Permutation_refl.
Qed.

Lemma knn_result_length (data query : list float) (n d k i : nat) :
  (1 <= d)%nat -> length (knn_result data query n d k i) = Nat.min k n.
Proof.
  intros Hd. unfold knn_result, found.
  destruct (tree_of_init data n d Hd) as [Hp [Hdim [Hn Hl]]].
  cbn zeta in *. rewrite Hn.
  destruct (Z.leb_spec (Z.of_nat k) 0) as [Hk|Hk]; simpl.
  - lia.
  - destruct (Nat.eqb_spec n 0) as [E|E]; simpl; [lia |].
    rewrite SpatialIndexFacts.search_length by (simpl; lia).
    rewrite (Permutation_length Hl), length_map, length_seq, Nat2Z.id.
    simpl. lia.
Qed.

Lemma knn_result_sorted (data query : list float) (n d k i : nat) :
  all_finite data -> all_finite query ->
  sorted_set (knn_result data query n d k i).
Proof.
  intros Hd Hq. unfold knn_result, found.
  destruct (_ || _).
  - split; constructor.
  - apply SpatialIndexOrder.search_sorted; try assumption.
    + unfold SpatialIndex.kdtree_init.
      destruct (_ || _); simpl; exact Hd.
    + split; constructor.
Qed.

(** Every neighbour found is a data point with its own squared
    distance. *)
Lemma knn_result_in (data query : list float) (n d k i : nat)
    (c : kdtree_neighbor) :
  In c (knn_result data query n d k i) ->
  exists j, (j < n)%nat /\ index c = Z.of_nat j /\
            distance c = dist_to data query d i j.
Proof.
  unfold knn_result, found.
  destruct (Nat.lt_ge_cases d 1) as [Hd|Hd].
  - (* no dimension: the empty index *)
    unfold SpatialIndex.kdtree_init.
    replace (Z.of_nat d <=? 0) with true by (symmetry; apply Z.leb_le; lia).
    simpl. rewrite orb_true_r. intros [].
  - destruct (tree_of_init data n d Hd) as [Hp [Hdim [Hn Hl]]].
    cbn zeta in *. rewrite Hp, Hdim.
    destruct (_ || _); [intros [] |].
    intros Hc.
    assert (H : Forall
                  (fun c => exists j, (j < n)%nat /\ index c = Z.of_nat j /\
                              distance c = dist_to data query d i j)
                  (SpatialIndex.search data d query (i * d)
                     (Z.to_nat (Z.of_nat k))
                     (SpatialIndex.tree_root
                        (SpatialIndex.kdtree_init data
                           (map Z.of_nat (seq 0 n)) (Z.of_nat n)
                           (Z.of_nat d))) [])).
    2:{ rewrite Forall_forall in H. apply H, Hc. }
    apply SpatialIndexFacts.search_forall; [| constructor].
    intros z Hz. apply (Permutation_in _ Hl) in Hz.
    apply in_map_iff in Hz. destruct Hz as [j [<- Hj]].
    apply in_seq in Hj. exists j. simpl. rewrite Nat2Z.id.
    repeat split. lia.
Qed.

(** ** The square root keeps distances well-formed *)

Lemma SFsqrt_core_nonneg (prec emax : Z) (m : positive) (e : Z) :
  0 <= fst (fst (SFsqrt_core_binary prec emax (Zpos m) e)).
Proof.
  unfold SFsqrt_core_binary.
  set (s := e - 2 * _).
  set (m' := match s with Z0 => Zpos m | Zpos _ => Z.shiftl (Zpos m) s
             | Zneg _ => 0 end).
  assert (Hm : 0 <= m').
  { unfold m'. destruct s; try lia. apply Z.shiftl_nonneg. lia. }
  pose proof (Z.sqrtrem_spec m' Hm) as H.
  destruct (Z.sqrtrem m') as [q r]. simpl. lia.
Qed.

Lemma SFsqrt_signed (prec emax : Z) (x : float) :
  nonneg x = true -> not_nan (SFsqrt prec emax x) = true /\
                     nonneg (SFsqrt prec emax x) = true.
Proof.
  destruct x as [s|s| |s m e]; simpl; intros H; try discriminate.
  - split; reflexivity.
  - destruct s; [discriminate | split; reflexivity].
  - destruct s; [discriminate |].
    pose proof (SFsqrt_core_nonneg prec emax m e) as Hq.
    destruct (SFsqrt_core_binary prec emax (Zpos m) e) as [[mz ez] lz].
    simpl in Hq.
    pose proof (binary_round_aux_signed prec emax false mz ez lz Hq) as Hs.
    destruct (binary_round_aux prec emax false mz ez lz); simpl in *;
      subst; tauto.
Qed.

Lemma c_sqrt_nonneg (x : float) : nonneg x = true -> nonneg (c_sqrt x) = true.
Proof.
  intros H. unfold c_sqrt.
  destruct (SFsqrt_signed prec64 emax64 x H) as [_ Hs].
  destruct (SFsqrt prec64 emax64 x) as [s|s| |s m e]; simpl in *;
    try assumption.
  destruct s; [discriminate |]. simpl.
  apply signed_false_nonneg, binary_round_signed.
Qed.

(** * Statements about [naive_knn] and [knn] *)

Lemma combine_fst_snd {A B : Type} (l : list (A * B)) :
  combine (map fst l) (map snd l) = l.
Proof.
  induction l as [|[a b] l IH]; simpl; [reflexivity | now rewrite IH].
Qed.

Lemma naive_neighbors (data query : list float) (n nq d k i : nat) :
  (i < nq)%nat ->
  neighbors k i (run_naive data query n nq d k) =
  naive_result data query n d k i.
Proof.
  intros Hi. unfold neighbors, run_naive.
  destruct (naive_knn_block data query n nq d k i Hi) as [H1 H2].
  cbn zeta in *. rewrite H1, H2. apply combine_fst_snd.
Qed.




Lemma flat_map_uniform_length {A B : Type} (f : B -> list A) (k : nat)
    (l : list B) :
  (forall x, length (f x) = k) ->
  length (flat_map f l) = (length l * k)%nat.
Proof.
  intros H. induction l as [|x l IH]; simpl; [reflexivity |].
  rewrite length_app, H, IH. reflexivity.
Qed.

Lemma skipn_repeat {A : Type} (x : A) (a m : nat) :
  skipn a (repeat x m) = repeat x (m - a).
Proof.
  revert a; induction m as [|m IH]; intros [|a]; simpl; auto.
Qed.

Lemma StronglySorted_nth {A : Type} (R : A -> A -> Prop) (l : list A)
    (d : A) :
  StronglySorted R l ->
  forall p q, (p < q)%nat -> (q < length l)%nat -> R (nth p l d) (nth q l d).
Proof.
  induction 1 as [|a l Hs IH Ha]; intros p q Hpq Hq; simpl in *; [lia |].
  destruct q as [|q]; [lia |]. destruct p as [|p].
  - rewrite Forall_forall in Ha. apply Ha, nth_In. lia.
  - apply IH; lia.
Qed.

Lemma StronglySorted_map {A B : Type} (R : A -> A -> Prop)
    (S : B -> B -> Prop) (f : A -> B) (l : list A) :
  (forall a b, R a b -> S (f a) (f b)) ->
  StronglySorted R l -> StronglySorted S (map f l).
Proof.
  intros H. induction 1 as [|a l Hs IH Ha]; simpl; constructor;
    [exact IH |].
  rewrite Forall_forall in *. intros y Hy.
  apply in_map_iff in Hy. destruct Hy as [x [<- Hx]]. apply H, Ha, Hx.
Qed.

(** Data point [n] leaves alone every slot whose distance is [<=] its
    own. *)
Lemma naive_result_keeps (data query : list float) (n d k i p : nat) :
  all_finite data -> all_finite query -> (p < k)%nat ->
  cle (nth p (naive_result data query n d k i) sentinel)
      (cand data query d i n) = true ->
  nth p (naive_result data query (S n) d k i) sentinel =
  nth p (naive_result data query n d k i) sentinel.
Proof.
  intros Hd Hq Hp Hle. rewrite naive_result_S.
  destruct (naive_result_inv data query n d k i Hd Hq)
    as [Hlen Hsort Hok _].
  destruct (place_split (cand data query d i n) _ Hsort Hok
              (cand_ok data query d i n Hd Hq))
    as [l1 [l2 [E1 [E2 [F1 F2]]]]].
  rewrite E2, nth_firstn.
  replace (p <? k)%nat with true by (symmetry; apply Nat.ltb_lt; exact Hp).
  rewrite E1 in Hle |- *.
  destruct (Nat.lt_ge_cases p (length l1)) as [Hl|Hl].
  - rewrite !app_nth1 by exact Hl. reflexivity.
  - rewrite app_nth2 in Hle by exact Hl.
    rewrite Forall_forall in F2.
    rewrite F2 in Hle; [discriminate |].
    apply nth_In. rewrite E1, length_app in Hlen. lia.
Qed.

Lemma naive_result_index (data query : list float) (n d k i : nat)
    (c : candidate) :
  all_finite data -> all_finite query ->
  In c (naive_result data query n d k i) ->
  c = sentinel \/
  (exists j, (j < n)%nat /\ c = cand data query d i j /\ below c = true).
Proof.
  intros Hd Hq Hc.
  destruct (naive_result_inv data query n d k i Hd Hq)
    as [_ _ _ [reals [m [dropped [E [HP [Hb _]]]]]]].
  rewrite E in Hc. apply in_app_or in Hc. destruct Hc as [Hc|Hc].
  - right. rewrite Forall_forall in Hb.
    assert (Hs : In c (seen data query d i n)).
    { apply (Permutation_in _ HP). apply in_or_app. now left. }
    unfold seen in Hs. apply in_map_iff in Hs.
    destruct Hs as [j [<- Hj]]. apply in_seq in Hj.
    exists j. repeat split; [lia | apply Hb, Hc].
  - left. now apply repeat_spec in Hc.
Qed.

(** ** Small inputs, and the outputs entry by entry *)

Lemma three_points_finite : all_finite [f0; f2; f4].
Proof. repeat constructor. Qed.

Lemma one_query_finite : all_finite [f2].
Proof. repeat constructor. Qed.




Lemma count_below_seen (data query : list float) (n d i : nat) :
  length (filter below (seen data query d i n)) = count_below data query n d i.
Proof.
  unfold seen, count_below. rewrite filter_map_swap, length_map.
  reflexivity.
Qed.

Lemma far_point_finite : all_finite [f0; f1e6].
Proof. repeat constructor. Qed.

Lemma origin_query_finite : all_finite [f0].
Proof. repeat constructor. Qed.

Lemma naive_knn_ascending (data query : list float) (n nq d k i : nat) :
  all_finite data -> all_finite query -> (i < nq)%nat ->
  ascending (block k i (out_neighbor_distances (run_naive data query n nq d k))).
Proof.
  intros Hd Hq Hi.
  destruct (naive_knn_block data query n nq d k i Hi) as [_ H2].
  cbn zeta in H2. unfold run_naive, ascending. rewrite H2.
  destruct (naive_result_inv data query n d k i Hd Hq) as [_ Hs _ _].
  apply (StronglySorted_map cle_rel); [| exact Hs].
  intros a b H. exact H.
Qed.

Lemma knn_block (data query : list float) (n nq d k i : nat) :
  (1 <= d)%nat -> (i < nq)%nat ->
  block (Nat.min k n) i (out_neighbor_indices (run_knn data query n nq d k)) =
    map index (knn_result data query n d k i) /\
  block (Nat.min k n) i
    (out_neighbor_distances (run_knn data query n nq d k)) =
    map (fun c => c_sqrt (distance c)) (knn_result data query n d k i).
Proof.
  intros Hd Hi. unfold run_knn. rewrite knn_kdtree_spec. simpl. split.
  - rewrite (block_flat_map (Nat.min k n) _ (seq 0 nq) O).
    + rewrite seq_nth by exact Hi. reflexivity.
    + intros x. rewrite length_map. apply knn_result_length, Hd.
    + rewrite length_seq. exact Hi.
  - rewrite (block_flat_map (Nat.min k n) _ (seq 0 nq) O).
    + rewrite seq_nth by exact Hi. reflexivity.
    + intros x. rewrite length_map. apply knn_result_length, Hd.
    + rewrite length_seq. exact Hi.
Qed.

(** * The square root is monotone on distances *)

(** ** Digits and powers of two *)

Lemma digits2_pos_bounds (p : positive) :
  2 ^ (Zpos (digits2_pos p) - 1) <= Zpos p < 2 ^ Zpos (digits2_pos p).
Proof.
  induction p as [p IH|p IH|]; simpl digits2_pos.
  - rewrite Pos2Z.inj_succ.
    replace (Z.succ (Zpos (digits2_pos p)) - 1)
      with (Z.succ (Zpos (digits2_pos p) - 1)) by lia.
    rewrite !Z.pow_succ_r by lia. lia.
  - rewrite Pos2Z.inj_succ.
    replace (Z.succ (Zpos (digits2_pos p)) - 1)
      with (Z.succ (Zpos (digits2_pos p) - 1)) by lia.
    rewrite !Z.pow_succ_r by lia. lia.
  - simpl. lia.
Qed.

Lemma Zdigits2_unique (m d : Z) :
  1 <= d -> 2 ^ (d - 1) <= m < 2 ^ d -> Zdigits2 m = d.
Proof.
  intros Hd [Hlo Hhi].
  assert (Hm : 0 < m).
  { apply Z.lt_le_trans with (2 ^ (d - 1)); [| exact Hlo].
    apply Z.pow_pos_nonneg; lia. }
  destruct m as [|p|p]; try lia. simpl.
  pose proof (digits2_pos_bounds p) as [Blo Bhi].
  destruct (Z.lt_trichotomy (Zpos (digits2_pos p)) d) as [H|[H|H]];
    [| exact H |].
  - assert (2 ^ Zpos (digits2_pos p) <= 2 ^ (d - 1))
      by (apply Z.pow_le_mono_r; lia).
    lia.
  - assert (2 ^ d <= 2 ^ (Zpos (digits2_pos p) - 1))
      by (apply Z.pow_le_mono_r; lia).
    lia.
Qed.

Lemma Zdigits2_le (m1 m2 : positive) :
  (m1 <= m2)%positive -> Zpos (digits2_pos m1) <= Zpos (digits2_pos m2).
Proof.
  intros H.
  pose proof (digits2_pos_bounds m1) as [L1 U1].
  pose proof (digits2_pos_bounds m2) as [L2 U2].
  destruct (Z.le_gt_cases (Zpos (digits2_pos m1)) (Zpos (digits2_pos m2)))
    as [G|G]; [exact G |].
  assert (2 ^ Zpos (digits2_pos m2) <= 2 ^ (Zpos (digits2_pos m1) - 1))
    by (apply Z.pow_le_mono_r; lia).
  lia.
Qed.

(** ** Shifting right, on codes *)

Lemma shr_1_code (r : shr_record) :
  0 <= shr_m r -> code (shr_1 r) = halve (code r).
Proof.
  destruct r as [m b s]. unfold code, halve. simpl shr_m. intros Hm.
  destruct m as [|p|p]; [| | lia].
  - destruct b, s; reflexivity.
  - destruct p as [p|p|]; simpl shr_1; simpl shr_m; simpl shr_r;
      simpl shr_s.
    + rewrite (Pos2Z.inj_xI p).
      destruct b, s; simpl orb;
        match goal with
        | |- context [(?c mod 4 =? 0)] => destruct (Z.eqb_spec (c mod 4) 0)
        end; Z.div_mod_to_equations; lia.
    + rewrite (Pos2Z.inj_xO p).
      destruct b, s; simpl orb;
        match goal with
        | |- context [(?c mod 4 =? 0)] => destruct (Z.eqb_spec (c mod 4) 0)
        end; Z.div_mod_to_equations; lia.
    + destruct b, s; reflexivity.
Qed.

Lemma code_of_loc (m : Z) (l : location) :
  loc_of_shr_record (shr_record_of_loc m l) = l.
Proof. destruct l as [|[]]; reflexivity. Qed.

Lemma code_exact (m : Z) : code (shr_record_of_loc m loc_Exact) = 4 * m.
Proof. unfold code. simpl. lia. Qed.

Lemma rne_code_spec (r : shr_record) :
  round_nearest_even (shr_m r) (loc_of_shr_record r) = rne_code (code r).
Proof.
  destruct r as [m b s]. unfold code, rne_code. simpl shr_m.
  simpl shr_r. simpl shr_s.
  destruct b, s; simpl loc_of_shr_record; simpl round_nearest_even.
  - replace ((4 * m + 2 + 1) mod 4) with 3
      by (Z.div_mod_to_equations; lia).
    replace ((4 * m + 2 + 1) / 4) with m by (Z.div_mod_to_equations; lia).
    simpl. reflexivity.
  - replace ((4 * m + 2 + 0) mod 4) with 2
      by (Z.div_mod_to_equations; lia).
    replace ((4 * m + 2 + 0) / 4) with m by (Z.div_mod_to_equations; lia).
    simpl. rewrite <- Z.negb_even. destruct (Z.even m); simpl; lia.
  - replace ((4 * m + 0 + 1) mod 4) with 1
      by (Z.div_mod_to_equations; lia).
    replace ((4 * m + 0 + 1) / 4) with m by (Z.div_mod_to_equations; lia).
    simpl. lia.
  - replace ((4 * m + 0 + 0) mod 4) with 0
      by (Z.div_mod_to_equations; lia).
    replace ((4 * m + 0 + 0) / 4) with m by (Z.div_mod_to_equations; lia).
    simpl. lia.
Qed.

Lemma halve_mono (c1 c2 : Z) : c1 <= c2 -> halve c1 <= halve c2.
Proof.
  intros H. unfold halve.
  destruct (Z.eqb_spec (c1 mod 4) 0); destruct (Z.eqb_spec (c2 mod 4) 0);
    Z.div_mod_to_equations; lia.
Qed.

Lemma halve_div (c : Z) : halve c / 4 = c / 4 / 2.
Proof.
  unfold halve. destruct (c mod 4 =? 0); Z.div_mod_to_equations; lia.
Qed.

Lemma rne_code_mono (c1 c2 : Z) : c1 <= c2 -> rne_code c1 <= rne_code c2.
Proof.
  intros H. unfold rne_code.
  assert (Hq : c1 / 4 < c2 / 4 \/
               (c1 / 4 = c2 / 4 /\ c1 mod 4 <= c2 mod 4))
    by (Z.div_mod_to_equations; lia).
  assert (B1 : 0 <= c1 mod 4 < 4) by (apply Z.mod_pos_bound; lia).
  assert (B2 : 0 <= c2 mod 4 < 4) by (apply Z.mod_pos_bound; lia).
  destruct Hq as [Hq|[Hq Hm]].
  - destruct ((c1 mod 4 =? 3) || _); destruct ((c2 mod 4 =? 3) || _); lia.
  - rewrite <- Hq.
    destruct (Z.eqb_spec (c1 mod 4) 3); destruct (Z.eqb_spec (c2 mod 4) 3);
      destruct (Z.eqb_spec (c1 mod 4) 2); destruct (Z.eqb_spec (c2 mod 4) 2);
      destruct (Z.odd (c1 / 4)); simpl; lia.
Qed.

Lemma rne_code_bounds (c : Z) : c / 4 <= rne_code c <= c / 4 + 1.
Proof.
  unfold rne_code. destruct ((c mod 4 =? 3) || _); lia.
Qed.

Lemma halve_n_mono (n : nat) (c1 c2 : Z) :
  c1 <= c2 -> halve_n n c1 <= halve_n n c2.
Proof.
  intros H. induction n as [|n IH]; simpl; [exact H |].
  apply halve_mono, IH.
Qed.

Lemma halve_n_div (n : nat) (c : Z) :
  halve_n n c / 4 = c / 4 / 2 ^ Z.of_nat n.
Proof.
  induction n as [|n IH].
  - simpl. now rewrite Z.div_1_r.
  - change (halve_n (S n) c) with (halve (halve_n n c)).
    rewrite halve_div, IH, Nat2Z.inj_succ, Z.pow_succ_r by lia.
    rewrite Z.div_div by (try apply Z.pow_pos_nonneg; lia).
    f_equal. lia.
Qed.

Lemma iter_pos_nat {A : Type} (f : A -> A) (p : positive) :
  forall x, iter_pos f p x = Nat.iter (Pos.to_nat p) f x.
Proof.
  induction p as [p IH|p IH|]; intros x; simpl iter_pos.
  - rewrite !IH, Pos2Nat.inj_xI.
    replace (S (2 * Pos.to_nat p))
      with (Pos.to_nat p + (Pos.to_nat p + 1))%nat by lia.
    rewrite !Nat.iter_add. reflexivity.
  - rewrite !IH, Pos2Nat.inj_xO.
    replace (2 * Pos.to_nat p)%nat
      with (Pos.to_nat p + Pos.to_nat p)%nat by lia.
    rewrite Nat.iter_add. reflexivity.
  - reflexivity.
Qed.

Lemma shr_1_iter_code (n : nat) (r : shr_record) :
  0 <= shr_m r ->
  0 <= shr_m (Nat.iter n shr_1 r) /\
  code (Nat.iter n shr_1 r) = halve_n n (code r).
Proof.
  intros Hr. induction n as [|n [IH1 IH2]]; simpl.
  - split; [exact Hr | reflexivity].
  - split; [apply shr_1_nonneg, IH1 |].
    rewrite shr_1_code by exact IH1. rewrite IH2. reflexivity.
Qed.

Lemma code_div (r : shr_record) : code r / 4 = shr_m r.
Proof.
  unfold code. destruct (shr_r r), (shr_s r);
    Z.div_mod_to_equations; lia.
Qed.

(** ** Rounding, step by step *)

Lemma fexp_eq (prec emax e : Z) :
  fexp prec emax e = Z.max (e - prec) (emin prec emax).
Proof. reflexivity. Qed.

Lemma emin_eq (prec emax : Z) : emin prec emax = 3 - emax - prec.
Proof. reflexivity. Qed.

Section RoundingSteps.

Variables prec emax : Z.
Hypothesis prec_pos : 1 <= prec.

Local Abbreviation emin' := (emin prec emax).

Lemma binary_round_aux_finish (s : bool) (m e : Z) (l : location) :
  binary_round_aux prec emax s m e l =
  finish prec emax s
    (round_nearest_even (shr_m (fst (shr_fexp prec emax m e l)))
       (loc_of_shr_record (fst (shr_fexp prec emax m e l))))
    (snd (shr_fexp prec emax m e l)).
Proof.
  unfold binary_round_aux, finish.
  destruct (shr_fexp prec emax m e l) as [mrs' e']. reflexivity.
Qed.

Lemma shr_fexp_stay (m e : Z) (l : location) :
  fexp prec emax (Zdigits2 m + e) - e <= 0 ->
  shr_fexp prec emax m e l = (shr_record_of_loc m l, e).
Proof.
  intros H. unfold shr_fexp, shr.
  destruct (fexp prec emax (Zdigits2 m + e) - e); try reflexivity. lia.
Qed.

Lemma shr_fexp_shift (m e : Z) (l : location) :
  0 <= m -> 0 <= fexp prec emax (Zdigits2 m + e) - e ->
  let n := fexp prec emax (Zdigits2 m + e) - e in
  snd (shr_fexp prec emax m e l) = e + n /\
  0 <= shr_m (fst (shr_fexp prec emax m e l)) /\
  code (fst (shr_fexp prec emax m e l)) =
    halve_n (Z.to_nat n) (code (shr_record_of_loc m l)).
Proof.
  intros Hm Hn. cbn zeta. unfold shr_fexp, shr.
  destruct (fexp prec emax (Zdigits2 m + e) - e) as [|p|p] eqn:E;
    simpl fst; simpl snd.
  - rewrite shr_record_of_loc_m. repeat split; lia.
  - rewrite iter_pos_nat.
    destruct (shr_1_iter_code (Pos.to_nat p) (shr_record_of_loc m l))
      as [H1 H2]; [rewrite shr_record_of_loc_m; exact Hm |].
    repeat split; assumption.
  - lia.
Qed.

Lemma finish_zero (s : bool) (E : Z) :
  emin' <= E -> finish prec emax s 0 E = S754_zero s.
Proof.
  intros HE. unfold finish. rewrite shr_fexp_stay; [reflexivity |].
  simpl Zdigits2. rewrite fexp_eq. lia.
Qed.

Lemma finish_normal (s : bool) (M E : Z) :
  2 ^ (prec - 1) <= M < 2 ^ prec -> emin' <= E ->
  finish prec emax s M E =
  if E <=? emax - prec then S754_finite s (Z.to_pos M) E
  else S754_infinity s.
Proof.
  intros HM HE. unfold finish.
  assert (Hd : Zdigits2 M = prec) by (apply Zdigits2_unique; assumption).
  rewrite shr_fexp_stay
    by (rewrite Hd; rewrite fexp_eq; lia).
  simpl shr_m.
  assert (0 < M).
  { apply Z.lt_le_trans with (2 ^ (prec - 1)); [| apply HM].
    apply Z.pow_pos_nonneg; lia. }
  destruct M as [|p|p]; try lia. reflexivity.
Qed.

Lemma finish_subnormal (s : bool) (M : Z) :
  0 < M < 2 ^ (prec - 1) ->
  finish prec emax s M emin' =
  if emin' <=? emax - prec then S754_finite s (Z.to_pos M) emin'
  else S754_infinity s.
Proof.
  intros HM. unfold finish.
  assert (Hd : Zdigits2 M <= prec - 1).
  { destruct M as [|p|p]; try lia. simpl.
    pose proof (digits2_pos_bounds p) as [L U].
    destruct (Z.le_gt_cases (Zpos (digits2_pos p)) (prec - 1)) as [G|G];
      [exact G |].
    assert (2 ^ (prec - 1) <= 2 ^ (Zpos (digits2_pos p) - 1))
      by (apply Z.pow_le_mono_r; lia).
    lia. }
  rewrite shr_fexp_stay
    by (rewrite fexp_eq; lia).
  simpl shr_m. destruct M as [|p|p]; try lia. reflexivity.
Qed.

Lemma finish_carry (s : bool) (E : Z) :
  emin' <= E ->
  finish prec emax s (2 ^ prec) E =
  if E + 1 <=? emax - prec
  then S754_finite s (Z.to_pos (2 ^ (prec - 1))) (E + 1)
  else S754_infinity s.
Proof.
  intros HE. unfold finish.
  assert (Hd : Zdigits2 (2 ^ prec) = prec + 1).
  { apply Zdigits2_unique; [lia |].
    replace (prec + 1 - 1) with prec by lia.
    split; [lia |]. apply Z.pow_lt_mono_r; lia. }
  assert (Hn : fexp prec emax (Zdigits2 (2 ^ prec) + E) - E = 1)
    by (rewrite Hd; rewrite fexp_eq; lia).
  assert (Hp : 0 < 2 ^ prec) by (apply Z.pow_pos_nonneg; lia).
  destruct (shr_fexp_shift (2 ^ prec) E loc_Exact) as [H1 [H2 H3]];
    try lia.
  cbn zeta in *. rewrite Hn in *.
  destruct (shr_fexp prec emax (2 ^ prec) E loc_Exact) as [mrs e].
  simpl fst in *; simpl snd in *. subst e.
  assert (Hm : shr_m mrs = 2 ^ (prec - 1)).
  { rewrite <- code_div, H3, code_exact.
    change (halve_n (Z.to_nat 1) (4 * 2 ^ prec)) with (halve (4 * 2 ^ prec)).
    rewrite halve_div.
    replace (2 ^ prec) with (2 * 2 ^ (prec - 1))
      by (rewrite <- Z.pow_succ_r by lia; f_equal; lia).
    Z.div_mod_to_equations. lia. }
  rewrite Hm.
  assert (0 < 2 ^ (prec - 1)) by (apply Z.pow_pos_nonneg; lia).
  destruct (2 ^ (prec - 1)) as [|p|p]; try lia. reflexivity.
Qed.

End RoundingSteps.

(** ** From [double] back to [float] *)

Lemma round32_mantissa (D : Z) :
  2 ^ 52 <= D < 2 ^ 53 ->
  2 ^ 23 <= rne_code (halve_n 29 (4 * D)) <= 2 ^ 24.
Proof.
  intros HD.
  pose proof (rne_code_bounds (halve_n 29 (4 * D))) as HB.
  rewrite halve_n_div in HB.
  replace (4 * D / 4) with D in HB by (Z.div_mod_to_equations; lia).
  change (2 ^ Z.of_nat 29) with 536870912 in HB.
  change (2 ^ 52) with 4503599627370496 in HD.
  change (2 ^ 53) with 9007199254740992 in HD.
  change (2 ^ 23) with 8388608. change (2 ^ 24) with 16777216.
  Z.div_mod_to_equations. lia.
Qed.

Lemma double_to_float_normal (m : positive) (e : Z) :
  2 ^ 52 <= Zpos m < 2 ^ 53 -> -178 <= e <= 74 ->
  double_to_float (S754_finite false m e) = round32 (Zpos m) e.
Proof.
  intros Hm He.
  assert (Hd : Zdigits2 (Zpos m) = 53) by (apply Zdigits2_unique; [lia | exact Hm]).
  assert (Hf : fexp prec32 emax32 (53 + e) = e + 29).
  { rewrite fexp_eq, emin_eq. unfold prec32, emax32. lia. }
  unfold double_to_float. simpl cond_Zopp.
  unfold binary_normalize, binary_round.
  change (Zpos (digits2_pos m)) with (Zdigits2 (Zpos m)).
  rewrite Hd, Hf. unfold shl_align.
  replace (e + 29 - e) with 29 by lia.
  rewrite binary_round_aux_finish.
  destruct (shr_fexp_shift prec32 emax32 (Zpos m) e loc_Exact)
    as [H1 [H2 H3]]; [lia | rewrite Hd, Hf; lia |].
  cbn zeta in *. rewrite Hd, Hf in H1, H3.
  replace (e + 29 - e) with 29 in H1, H3 by lia.
  rewrite H1, rne_code_spec, H3, code_exact.
  change (Z.to_nat 29) with 29%nat.
  pose proof (round32_mantissa (Zpos m) Hm) as HM.
  unfold round32. cbn zeta.
  set (M := rne_code (halve_n 29 (4 * Zpos m))) in *.
  destruct (Z.ltb_spec M (2 ^ 24)) as [Hlt|Hge].
  - rewrite finish_normal.
    + replace (e + 29 <=? emax32 - prec32) with true; [reflexivity |].
      symmetry. apply Z.leb_le. unfold emax32, prec32. lia.
    + unfold prec32. lia.
    + unfold prec32. change (24 - 1) with 23. lia.
    + rewrite emin_eq. unfold prec32, emax32. lia.
  - assert (EM : M = 2 ^ prec32) by (unfold prec32; lia).
    rewrite EM, finish_carry.
    + replace (e + 29 + 1 <=? emax32 - prec32) with true.
      * replace (e + 29 + 1) with (e + 30) by lia. reflexivity.
      * symmetry. apply Z.leb_le. unfold emax32, prec32. lia.
    + unfold prec32. lia.
    + rewrite emin_eq. unfold prec32, emax32. lia.
Qed.

Lemma to_pos_le (a b : Z) :
  0 < a -> a <= b -> (Z.to_pos a <= Z.to_pos b)%positive.
Proof. destruct a, b; simpl; lia. Qed.

Lemma round32_mono (D1 E1 D2 E2 : Z) :
  2 ^ 52 <= D1 < 2 ^ 53 -> 2 ^ 52 <= D2 < 2 ^ 53 ->
  E1 < E2 \/ (E1 = E2 /\ D1 <= D2) ->
  fle (round32 D1 E1) (round32 D2 E2) = true.
Proof.
  intros H1 H2 Hle.
  pose proof (round32_mantissa D1 H1) as B1.
  pose proof (round32_mantissa D2 H2) as B2.
  assert (HM : E1 = E2 ->
               rne_code (halve_n 29 (4 * D1)) <=
               rne_code (halve_n 29 (4 * D2))).
  { intros HE. apply rne_code_mono, halve_n_mono. lia. }
  unfold round32. cbn zeta.
  set (M1 := rne_code (halve_n 29 (4 * D1))) in *.
  set (M2 := rne_code (halve_n 29 (4 * D2))) in *.
  change (2 ^ 23) with 8388608 in *. change (2 ^ 24) with 16777216 in *.
  destruct (Z.ltb_spec M1 16777216) as [L1|L1];
    destruct (Z.ltb_spec M2 16777216) as [L2|L2];
    apply fle_finite.
  - destruct Hle as [Hle|[HE HD]]; [left; lia |].
    right. split; [lia |].
    apply to_pos_le; lia.
  - left. lia.
  - destruct Hle as [Hle|[HE HD]]; [| specialize (HM HE); lia].
    destruct (Z.eq_dec (E1 + 30) (E2 + 29)) as [E|E]; [| left; lia].
    right. split; [exact E |].
    change 8388608%positive with (Z.to_pos 8388608).
    apply to_pos_le; lia.
  - destruct Hle as [Hle|[HE HD]]; [left; lia | right; split; lia].
Qed.

(** ** The square root in [double] *)

Lemma bounded32_range (m : positive) (e : Z) :
  bounded prec32 emax32 m e = true ->
  1 <= Zdigits2 (Zpos m) <= 24 /\ -149 <= e <= 104 /\
  (Zdigits2 (Zpos m) = 24 \/ e = -149).
Proof.
  unfold bounded, canonical_mantissa. intros H.
  apply andb_true_iff in H. destruct H as [H1 H2].
  apply Z.eqb_eq in H1. apply Z.leb_le in H2.
  rewrite fexp_eq, emin_eq in H1. unfold prec32, emax32 in *.
  simpl Zdigits2. lia.
Qed.

Lemma sqrt_exponent_range (m : positive) (e : Z) :
  bounded prec32 emax32 m e = true ->
  -127 <= sqrt_exponent m e <= 11 /\
  81 <= e - 2 * sqrt_exponent m e.
Proof.
  intros H. destruct (bounded32_range m e H) as [Hd [He _]].
  unfold sqrt_exponent. Z.div_mod_to_equations. lia.
Qed.

Lemma sqrt_radicand_bounds (m : positive) (e : Z) :
  bounded prec32 emax32 m e = true ->
  2 ^ 104 <= sqrt_radicand m e < 2 ^ 106.
Proof.
  intros H. destruct (bounded32_range m e H) as [Hd [He _]].
  destruct (sqrt_exponent_range m e H) as [_ Hs].
  pose proof (digits2_pos_bounds m) as [Lo Hi].
  change (Zpos (digits2_pos m)) with (Zdigits2 (Zpos m)) in Lo, Hi.
  unfold sqrt_radicand.
  set (d := Zdigits2 (Zpos m)) in *.
  set (s := e - 2 * sqrt_exponent m e) in *.
  assert (Hds : 104 <= d - 1 + s <= 105).
  { unfold s, sqrt_exponent. fold d. Z.div_mod_to_equations. lia. }
  assert (P : 0 < 2 ^ s) by (apply Z.pow_pos_nonneg; lia).
  split.
  - apply Z.le_trans with (2 ^ (d - 1 + s)).
    + apply Z.pow_le_mono_r; lia.
    + rewrite Z.pow_add_r by lia. apply Z.mul_le_mono_nonneg_r; lia.
  - apply Z.lt_le_trans with (2 ^ (d + s)).
    + rewrite Z.pow_add_r by lia. apply Z.mul_lt_mono_pos_r; lia.
    + apply Z.pow_le_mono_r; lia.
Qed.

Lemma sqrt_root_bounds (m : positive) (e : Z) :
  bounded prec32 emax32 m e = true ->
  2 ^ 52 <= Z.sqrt (sqrt_radicand m e) < 2 ^ 53.
Proof.
  intros H. destruct (sqrt_radicand_bounds m e H) as [Lo Hi]. split.
  - change (2 ^ 52) with (Z.sqrt (2 ^ 104)). apply Z.sqrt_le_mono, Lo.
  - apply Z.sqrt_lt_square; [lia | lia |]. exact Hi.
Qed.

Lemma sqrt_mantissa_bounds (m : positive) (e : Z) :
  bounded prec32 emax32 m e = true ->
  2 ^ 52 <= sqrt_mantissa m e <= 2 ^ 53.
Proof.
  intros H. destruct (sqrt_root_bounds m e H) as [Lo Hi].
  unfold sqrt_mantissa. cbn zeta. destruct (_ <? _); lia.
Qed.

Lemma SFsqrt_core_float (m : positive) (e : Z) :
  bounded prec32 emax32 m e = true ->
  let q := Z.sqrt (sqrt_radicand m e) in
  let r := sqrt_radicand m e - q * q in
  SFsqrt_core_binary prec64 emax64 (Zpos m) e =
  (q, sqrt_exponent m e,
   if r =? 0 then loc_Exact
   else loc_Inexact (if r <=? q then Lt else Gt)).
Proof.
  intros H. destruct (bounded32_range m e H) as [Hd [He _]].
  destruct (sqrt_exponent_range m e H) as [HE Hs].
  cbn zeta. unfold SFsqrt_core_binary.
  assert (E1 : IntDef.Z.min
                 (fexp prec64 emax64
                    (Z.div2 (Zdigits2 (Zpos m) + e + 1)))
                 (Z.div2 e) = sqrt_exponent m e).
  { change (IntDef.Z.min ?a ?b) with (Z.min a b).
    rewrite !Z.div2_div, fexp_eq, emin_eq.
    unfold sqrt_exponent, prec64, emax64. Z.div_mod_to_equations. lia. }
  rewrite E1.
  change IntDef.Z.sqrtrem with Z.sqrtrem.
  change IntDef.Z.shiftl with Z.shiftl.
  destruct (e - 2 * sqrt_exponent m e) as [|p|p] eqn:Es; try lia.
  rewrite Z.shiftl_mul_pow2 by lia.
  assert (Er : Zpos m * 2 ^ Zpos p = sqrt_radicand m e)
    by (unfold sqrt_radicand; rewrite Es; reflexivity).
  rewrite Er.
  pose proof (Z.sqrtrem_spec (sqrt_radicand m e)) as Hq.
  pose proof (Z.sqrtrem_sqrt (sqrt_radicand m e)) as Hf.
  destruct (Z.sqrtrem (sqrt_radicand m e)) as [q r]. simpl in Hf.
  destruct Hq as [Hq1 Hq2].
  { destruct (sqrt_radicand_bounds m e H). lia. }
  subst q. replace (sqrt_radicand m e - Z.sqrt (sqrt_radicand m e) *
                    Z.sqrt (sqrt_radicand m e)) with r by lia.
  reflexivity.
Qed.

(** The binary64 square root of a binary32 number, before the final
    normalisation. *)
Lemma SFsqrt_float (m : positive) (e : Z) :
  bounded prec32 emax32 m e = true ->
  SFsqrt prec64 emax64 (S754_finite false m e) =
  finish prec64 emax64 false (sqrt_mantissa m e) (sqrt_exponent m e).
Proof.
  intros H.
  destruct (sqrt_exponent_range m e H) as [HE _].
  destruct (sqrt_root_bounds m e H) as [Lo Hi].
  pose proof (SFsqrt_core_float m e H) as Hc. cbn zeta in Hc.
  unfold SFsqrt. rewrite Hc. clear Hc.
  set (q := Z.sqrt (sqrt_radicand m e)) in *.
  set (r := sqrt_radicand m e - q * q) in *.
  assert (Hr : 0 <= r).
  { destruct (sqrt_radicand_bounds m e H) as [B _].
    assert (B0 : 0 <= sqrt_radicand m e) by lia.
    pose proof (Z.sqrt_spec (sqrt_radicand m e) B0) as S.
    cbn zeta in S. unfold r, q. lia. }
  rewrite binary_round_aux_finish.
  rewrite shr_fexp_stay.
  2:{ rewrite (Zdigits2_unique q 53) by (try exact (conj Lo Hi); lia).
      rewrite fexp_eq, emin_eq. unfold prec64, emax64. lia. }
  simpl fst; simpl snd. rewrite shr_record_of_loc_m, code_of_loc.
  f_equal. unfold sqrt_mantissa. cbn zeta. fold q. fold r.
  destruct (Z.eqb_spec r 0) as [E0|E0].
  - simpl. replace (q <? r) with false; [lia |].
    symmetry. apply Z.ltb_ge. lia.
  - destruct (Z.leb_spec r q) as [L|L]; simpl.
    + replace (q <? r) with false; [lia |].
      symmetry. apply Z.ltb_ge. lia.
    + replace (q <? r) with true; [lia |].
      symmetry. apply Z.ltb_lt. lia.
Qed.

Lemma sqrt_double_bounds (m : positive) (e : Z) :
  bounded prec32 emax32 m e = true ->
  2 ^ 52 <= fst (sqrt_double m e) < 2 ^ 53 /\
  -127 <= snd (sqrt_double m e) <= 12.
Proof.
  intros H. destruct (sqrt_mantissa_bounds m e H) as [Lo Hi].
  destruct (sqrt_exponent_range m e H) as [HE _].
  unfold sqrt_double.
  destruct (Z.ltb_spec (sqrt_mantissa m e) (2 ^ 53)); simpl; lia.
Qed.

(** [c_sqrt] on a positive binary32 number, in closed form. *)
Lemma c_sqrt_finite (m : positive) (e : Z) :
  bounded prec32 emax32 m e = true ->
  c_sqrt (S754_finite false m e) =
  round32 (fst (sqrt_double m e)) (snd (sqrt_double m e)).
Proof.
  intros H. destruct (sqrt_mantissa_bounds m e H) as [Lo Hi].
  destruct (sqrt_exponent_range m e H) as [HE _].
  unfold c_sqrt. rewrite SFsqrt_float by exact H.
  unfold sqrt_double.
  destruct (Z.ltb_spec (sqrt_mantissa m e) (2 ^ 53)) as [L|L];
    simpl fst; simpl snd.
  - rewrite finish_normal.
    + replace (sqrt_exponent m e <=? emax64 - prec64) with true
        by (symmetry; apply Z.leb_le; unfold emax64, prec64; lia).
      rewrite double_to_float_normal.
      * rewrite Z2Pos.id by lia. reflexivity.
      * rewrite Z2Pos.id by lia. lia.
      * lia.
    + unfold prec64. lia.
    + unfold prec64. change (53 - 1) with 52. lia.
    + rewrite emin_eq. unfold prec64, emax64. lia.
  - assert (EM : sqrt_mantissa m e = 2 ^ prec64) by (unfold prec64; lia).
    rewrite EM, finish_carry.
    + replace (sqrt_exponent m e + 1 <=? emax64 - prec64) with true
        by (symmetry; apply Z.leb_le; unfold emax64, prec64; lia).
      rewrite double_to_float_normal.
      * reflexivity.
      * change (Zpos (Z.to_pos (2 ^ (prec64 - 1)))) with (2 ^ 52). lia.
      * lia.
    + unfold prec64. lia.
    + rewrite emin_eq. unfold prec64, emax64. lia.
Qed.

Lemma sqrt_round_mono (a b : Z) :
  0 <= a <= b ->
  Z.sqrt a + (if Z.sqrt a <? a - Z.sqrt a * Z.sqrt a then 1 else 0) <=
  Z.sqrt b + (if Z.sqrt b <? b - Z.sqrt b * Z.sqrt b then 1 else 0).
Proof.
  intros [Ha Hab].
  pose proof (Z.sqrt_le_mono a b Hab) as Hq.
  destruct (Z.eq_dec (Z.sqrt a) (Z.sqrt b)) as [E|E].
  - rewrite <- E.
    destruct (Z.ltb_spec (Z.sqrt a) (a - Z.sqrt a * Z.sqrt a));
      destruct (Z.ltb_spec (Z.sqrt a) (b - Z.sqrt a * Z.sqrt a)); lia.
  - destruct (_ <? _); destruct (_ <? _); lia.
Qed.

(** The order of positive binary32 numbers, read on exponent and
    mantissa, carries over to the binary64 square roots. *)
Lemma sqrt_double_mono (m1 : positive) (e1 : Z) (m2 : positive) (e2 : Z) :
  bounded prec32 emax32 m1 e1 = true ->
  bounded prec32 emax32 m2 e2 = true ->
  e1 < e2 \/ (e1 = e2 /\ (m1 <= m2)%positive) ->
  snd (sqrt_double m1 e1) < snd (sqrt_double m2 e2) \/
  (snd (sqrt_double m1 e1) = snd (sqrt_double m2 e2) /\
   fst (sqrt_double m1 e1) <= fst (sqrt_double m2 e2)).
Proof.
  intros H1 H2 Hle.
  destruct (bounded32_range m1 e1 H1) as [Hd1 [He1 Hc1]].
  destruct (bounded32_range m2 e2 H2) as [Hd2 [He2 Hc2]].
  destruct (sqrt_mantissa_bounds m1 e1 H1) as [Lo1 Hi1].
  destruct (sqrt_mantissa_bounds m2 e2 H2) as [Lo2 Hi2].
  destruct (sqrt_exponent_range m1 e1 H1) as [_ Hs1].
  destruct (sqrt_exponent_range m2 e2 H2) as [_ Hs2].
  assert (Hd : Zdigits2 (Zpos m1) + e1 <= Zdigits2 (Zpos m2) + e2).
  { destruct Hle as [Hlt|[-> Hm]]; [lia |].
    pose proof (Zdigits2_le m1 m2 Hm). simpl Zdigits2. lia. }
  assert (HE : sqrt_exponent m1 e1 <= sqrt_exponent m2 e2)
    by (unfold sqrt_exponent; Z.div_mod_to_equations; lia).
  assert (HM : sqrt_exponent m1 e1 = sqrt_exponent m2 e2 ->
               sqrt_mantissa m1 e1 <= sqrt_mantissa m2 e2).
  { intros EE. unfold sqrt_mantissa. cbn zeta. apply sqrt_round_mono.
    destruct (sqrt_radicand_bounds m1 e1 H1) as [R1 _].
    split; [lia |]. unfold sqrt_radicand. rewrite <- EE.
    set (E := sqrt_exponent m1 e1) in *.
    destruct Hle as [Hlt|[-> Hm]].
    - pose proof (digits2_pos_bounds m1) as [_ U1].
      pose proof (digits2_pos_bounds m2) as [L2 _].
      change (Zpos (digits2_pos m1)) with (Zdigits2 (Zpos m1)) in U1.
      change (Zpos (digits2_pos m2)) with (Zdigits2 (Zpos m2)) in L2.
      assert (D2 : Zdigits2 (Zpos m2) = 24) by lia. rewrite D2 in L2.
      assert (U1' : Zpos m1 < 2 ^ 24).
      { apply Z.lt_le_trans with (2 ^ Zdigits2 (Zpos m1)); [exact U1 |].
        apply Z.pow_le_mono_r; lia. }
      rewrite EE in Hs1. fold E in Hs1, Hs2.
      assert (P1 : 0 < 2 ^ (e1 - 2 * E)) by (apply Z.pow_pos_nonneg; lia).
      replace (e2 - 2 * E) with ((e1 - 2 * E) + (e2 - e1)) by lia.
      rewrite Z.pow_add_r by lia.
      assert (P2 : 2 ^ 1 <= 2 ^ (e2 - e1)) by (apply Z.pow_le_mono_r; lia).
      change (2 ^ 1) with 2 in P2.
      change (2 ^ 24) with 16777216 in U1'.
      change (2 ^ (24 - 1)) with 8388608 in L2.
      set (P := 2 ^ (e1 - 2 * E)) in *. set (Q := 2 ^ (e2 - e1)) in *.
      assert (A1 : Zpos m1 * P <= 16777216 * P)
        by (apply Z.mul_le_mono_nonneg_r; lia).
      assert (A2 : 2 * P <= P * Q) by nia.
      assert (A3 : 8388608 * (P * Q) <= Zpos m2 * (P * Q))
        by (apply Z.mul_le_mono_nonneg_r; nia).
      lia.
    - apply Z.mul_le_mono_nonneg_r; [| lia].
      apply Z.pow_nonneg. lia. }
  unfold sqrt_double.
  destruct (Z.ltb_spec (sqrt_mantissa m1 e1) (2 ^ 53)) as [L1|L1];
    destruct (Z.ltb_spec (sqrt_mantissa m2 e2) (2 ^ 53)) as [L2|L2];
    simpl fst; simpl snd;
    destruct (Z.eq_dec (sqrt_exponent m1 e1) (sqrt_exponent m2 e2))
      as [EE|EE];
    try (specialize (HM EE)); lia.
Qed.

Lemma fle_zero_l (s : bool) (y : float) :
  nonneg y = true -> fle (S754_zero s) y = true.
Proof.
  destruct y as [sy|sy| |sy my ey]; simpl; intros H; try discriminate;
    try reflexivity; destruct sy; try discriminate; reflexivity.
Qed.

Lemma fle_inf_r (x : float) :
  nonneg x = true -> fle x (S754_infinity false) = true.
Proof.
  destruct x as [sx|sx| |sx mx ex]; simpl; intros H; try discriminate;
    try reflexivity; destruct sx; try discriminate; reflexivity.
Qed.

(** [c_sqrt] is monotone on distances. *)
Lemma c_sqrt_mono (x y : float) :
  distance32 x -> distance32 y -> fle x y = true ->
  fle (c_sqrt x) (c_sqrt y) = true.
Proof.
  intros [Nx Bx] [Ny By] Hle.
  pose proof (c_sqrt_nonneg x Nx) as Sx.
  pose proof (c_sqrt_nonneg y Ny) as Sy.
  destruct x as [sx|[|]| |[|] mx ex]; try discriminate;
    destruct y as [sy|[|]| |[|] my ey]; try discriminate;
    try (apply fle_zero_l; exact Sy);
    try (apply fle_inf_r; exact Sx).
  unfold binary32 in Bx, By. simpl valid_binary in Bx, By.
  rewrite !c_sqrt_finite by assumption.
  apply fle_finite in Hle.
  destruct (sqrt_double_bounds mx ex Bx) as [B1 _].
  destruct (sqrt_double_bounds my ey By) as [B2 _].
  apply round32_mono; try assumption.
  apply sqrt_double_mono; assumption.
Qed.

(** ** Distances are binary32 data *)

Lemma valid_normal (s : bool) (M E : Z) :
  2 ^ 23 <= M < 2 ^ 24 -> -149 <= E <= 104 ->
  valid_binary prec32 emax32 (S754_finite s (Z.to_pos M) E) = true.
Proof.
  intros HM HE. simpl. unfold bounded, canonical_mantissa.
  change (Zpos (digits2_pos (Z.to_pos M))) with (Zdigits2 (Zpos (Z.to_pos M))).
  rewrite Z2Pos.id by lia.
  rewrite (Zdigits2_unique M 24) by (try exact HM; lia).
  rewrite fexp_eq, emin_eq. unfold prec32, emax32.
  apply andb_true_iff. split; [apply Z.eqb_eq | apply Z.leb_le]; lia.
Qed.

Lemma valid_subnormal (s : bool) (M : Z) :
  0 < M < 2 ^ 23 ->
  valid_binary prec32 emax32 (S754_finite s (Z.to_pos M) (-149)) = true.
Proof.
  intros HM. simpl. unfold bounded, canonical_mantissa.
  change (Zpos (digits2_pos (Z.to_pos M))) with (Zdigits2 (Zpos (Z.to_pos M))).
  rewrite Z2Pos.id by lia.
  assert (Hd : 1 <= Zdigits2 M <= 23).
  { destruct M as [|p|p]; try lia. simpl.
    pose proof (digits2_pos_bounds p) as [L U].
    split; [lia |].
    destruct (Z.le_gt_cases (Zpos (digits2_pos p)) 23) as [G|G];
      [exact G |].
    assert (2 ^ 23 <= 2 ^ (Zpos (digits2_pos p) - 1))
      by (apply Z.pow_le_mono_r; lia).
    lia. }
  rewrite fexp_eq, emin_eq. unfold prec32, emax32.
  apply andb_true_iff. split; [apply Z.eqb_eq | apply Z.leb_le]; lia.
Qed.

(** Rounding a mantissa that is not too short for its exponent gives a
    binary32 datum. *)
Lemma binary_round_aux_valid (s : bool) (m e : Z) (l : location) :
  0 < m -> e <= fexp prec32 emax32 (Zdigits2 m + e) ->
  valid_binary prec32 emax32 (binary_round_aux prec32 emax32 s m e l) = true.
Proof.
  intros Hm He.
  rewrite binary_round_aux_finish.
  destruct (shr_fexp_shift prec32 emax32 m e l) as [H1 [H2 H3]]; try lia.
  cbn zeta in *.
  set (E := fexp prec32 emax32 (Zdigits2 m + e)) in *.
  set (r := fst (shr_fexp prec32 emax32 m e l)) in *.
  rewrite H1, rne_code_spec. replace (e + (E - e)) with E by lia.
  pose proof (rne_code_bounds (code r)) as HB.
  assert (Hq : code r / 4 = m / 2 ^ (E - e)).
  { rewrite H3, halve_n_div, code_div, shr_record_of_loc_m.
    rewrite Z2Nat.id by lia. reflexivity. }
  rewrite Hq in HB.
  set (M := rne_code (code r)) in *.
  assert (Hd : 2 ^ (Zdigits2 m - 1) <= m < 2 ^ Zdigits2 m).
  { destruct m as [|p|p]; try lia. apply digits2_pos_bounds. }
  assert (Hd1 : 1 <= Zdigits2 m) by (destruct m; simpl; lia).
  assert (HE : E = Z.max (Zdigits2 m + e - 24) (-149))
    by (unfold E; rewrite fexp_eq, emin_eq; reflexivity).
  assert (Pn : 0 < 2 ^ (E - e)) by (apply Z.pow_pos_nonneg; lia).
  destruct (Z.le_gt_cases (-149) (Zdigits2 m + e - 24)) as [N|N].
  - (* normal *)
    assert (En : E - e = Zdigits2 m - 24) by lia.
    assert (B : 2 ^ 23 <= m / 2 ^ (E - e) < 2 ^ 24).
    { rewrite En. split.
      - apply Z.div_le_lower_bound; [apply Z.pow_pos_nonneg; lia |].
        rewrite <- Z.pow_add_r by lia.
        replace (Zdigits2 m - 24 + 23) with (Zdigits2 m - 1) by lia.
        apply Hd.
      - apply Z.div_lt_upper_bound; [apply Z.pow_pos_nonneg; lia |].
        rewrite <- Z.pow_add_r by lia.
        replace (Zdigits2 m - 24 + 24) with (Zdigits2 m) by lia.
        apply Hd. }
    destruct (Z.lt_ge_cases M (2 ^ 24)) as [L|L].
    + rewrite finish_normal;
        [| unfold prec32; lia | unfold prec32; change (24 - 1) with 23; lia
         | rewrite emin_eq; unfold prec32, emax32; lia].
      destruct (Z.leb_spec E (emax32 - prec32)) as [O|O]; [| reflexivity].
      apply valid_normal; [lia |]. unfold emax32, prec32 in O. lia.
    + assert (EM : M = 2 ^ prec32) by (unfold prec32; lia).
      rewrite EM, finish_carry;
        [| unfold prec32; lia
         | rewrite emin_eq; unfold prec32, emax32; lia].
      destruct (Z.leb_spec (E + 1) (emax32 - prec32)) as [O|O];
        [| reflexivity].
      apply valid_normal; [unfold prec32; simpl; lia |].
      unfold emax32, prec32 in O. lia.
  - (* subnormal *)
    assert (En : E = -149) by lia.
    assert (B : 0 <= m / 2 ^ (E - e) < 2 ^ 23).
    { split; [apply Z.div_pos; lia |].
      apply Z.div_lt_upper_bound; [exact Pn |].
      rewrite <- Z.pow_add_r by lia.
      apply Z.lt_le_trans with (2 ^ Zdigits2 m); [apply Hd |].
      apply Z.pow_le_mono_r; lia. }
    rewrite En.
    destruct (Z.eq_dec M 0) as [Z0|Z0].
    + rewrite Z0. change (-149) with (emin prec32 emax32).
      rewrite finish_zero;
        [reflexivity | unfold prec32; lia | apply Z.le_refl].
    + destruct (Z.lt_ge_cases M (2 ^ 23)) as [L|L].
      * change (-149) with (emin prec32 emax32).
        rewrite finish_subnormal
          by (unfold prec32; change (24 - 1) with 23; lia).
        change (emin prec32 emax32 <=? emax32 - prec32) with true.
        cbv iota. apply valid_subnormal. lia.
      * rewrite finish_normal;
          [| unfold prec32; lia
           | unfold prec32; change (24 - 1) with 23; lia
           | rewrite emin_eq; unfold prec32, emax32; lia].
        change (-149 <=? emax32 - prec32) with true. cbv iota.
        apply valid_normal; lia.
Qed.

Lemma digits_iter_xO (m k : positive) :
  Zdigits2 (Zpos (Pos.iter xO m k)) = Zdigits2 (Zpos m) + Zpos k.
Proof.
  induction k as [|k IH] using Pos.peano_ind.
  - simpl. lia.
  - rewrite Pos.iter_succ. simpl Zdigits2 in *.
    rewrite Pos2Z.inj_succ, IH. lia.
Qed.

Lemma binary_round_valid (s : bool) (m : positive) (e : Z) :
  valid_binary prec32 emax32 (binary_round prec32 emax32 s m e) = true.
Proof.
  unfold binary_round, shl_align.
  change (Zpos (digits2_pos m)) with (Zdigits2 (Zpos m)).
  destruct (fexp prec32 emax32 (Zdigits2 (Zpos m) + e) - e) as [|k|k] eqn:E.
  - apply binary_round_aux_valid; lia.
  - apply binary_round_aux_valid; lia.
  - apply binary_round_aux_valid; [lia |].
    rewrite digits_iter_xO.
    replace (Zdigits2 (Zpos m) + Zpos k +
             fexp prec32 emax32 (Zdigits2 (Zpos m) + e))
      with (Zdigits2 (Zpos m) + e) by lia.
    lia.
Qed.

Lemma binary_normalize_valid (m e : Z) (sz : bool) :
  valid_binary prec32 emax32 (binary_normalize prec32 emax32 m e sz) = true.
Proof.
  destruct m; simpl; [reflexivity | |]; apply binary_round_valid.
Qed.

Lemma fsub_valid (x y : float) :
  binary32 x = true -> binary32 y = true -> binary32 (fsub x y) = true.
Proof.
  unfold binary32, fsub.
  destruct x as [sx|sx| |sx mx ex], y as [sy|sy| |sy my ey]; simpl;
    intros Hx Hy; try reflexivity; try assumption;
    try (destruct sx, sy; reflexivity).
  apply binary_normalize_valid.
Qed.

Lemma fadd_valid (x y : float) :
  binary32 x = true -> binary32 y = true -> binary32 (fadd x y) = true.
Proof.
  unfold binary32, fadd.
  destruct x as [sx|sx| |sx mx ex], y as [sy|sy| |sy my ey]; simpl;
    intros Hx Hy; try reflexivity; try assumption;
    try (destruct sx, sy; reflexivity).
  apply binary_normalize_valid.
Qed.

Lemma fmul_square_valid (x : float) :
  binary32 x = true -> binary32 (fmul x x) = true.
Proof.
  unfold binary32, fmul.
  destruct x as [sx|sx| |sx mx ex]; simpl; intros Hx; try reflexivity.
  destruct (bounded32_range mx ex Hx) as [Hd [He Hc]].
  apply binary_round_aux_valid; [lia |].
  pose proof (digits2_pos_bounds mx) as [L U].
  pose proof (digits2_pos_bounds (mx * mx)) as [L2 U2].
  change (Zpos (digits2_pos mx)) with (Zdigits2 (Zpos mx)) in *.
  change (Zpos (digits2_pos (mx * mx)))
    with (Zdigits2 (Zpos (mx * mx))) in *.
  rewrite fexp_eq, emin_eq. unfold prec32, emax32.
  destruct Hc as [Hc|Hc]; [| lia].
  rewrite Hc in L. change (2 ^ (24 - 1)) with 8388608 in L.
  assert (Hsq : 2 ^ 46 <= Zpos (mx * mx)).
  { rewrite Pos2Z.inj_mul. change (2 ^ 46) with (8388608 * 8388608). nia. }
  assert (Hdd : 47 <= Zdigits2 (Zpos (mx * mx))).
  { destruct (Z.le_gt_cases 47 (Zdigits2 (Zpos (mx * mx)))) as [G|G];
      [exact G |].
    assert (2 ^ Zdigits2 (Zpos (mx * mx)) <= 2 ^ 46)
      by (apply Z.pow_le_mono_r; simpl Zdigits2 in *; lia).
    lia. }
  lia.
Qed.

Lemma finite_binary32_sub (x y : float) :
  binary32 x = true /\ finite x = true ->
  binary32 y = true /\ finite y = true ->
  binary32 (fsub x y) = true /\ not_nan (fsub x y) = true.
Proof.
  intros [Bx Fx] [By Fy]. split.
  - apply fsub_valid; assumption.
  - apply SFsub_finite_not_nan; assumption.
Qed.

Lemma sqdist_distance32 (p : list float) (po : nat) (q : list float)
    (qo d : nat) :
  all_finite p -> all_finite q -> distance32 (sqdist p po q qo d).
Proof.
  intros Hp Hq. unfold sqdist.
  apply fold_left_invariant with (P := distance32);
    [| split; reflexivity].
  intros dist c [Nd Bd] _.
  destruct (finite_binary32_sub (aget f0 p (po + c)) (aget f0 q (qo + c)))
    as [Bs Ns]; try (apply aget_binary32_finite; assumption).
  split.
  - unfold fadd, fmul. apply SFadd_nonneg; [exact Nd |].
    apply SFmul_square_nonneg, Ns.
  - apply fadd_valid; [exact Bd |]. apply fmul_square_valid, Bs.
Qed.

Lemma StronglySorted_with {A : Type} (R : A -> A -> Prop) (P : A -> Prop)
    (l : list A) :
  StronglySorted R l -> Forall P l ->
  StronglySorted (fun a b => R a b /\ P a /\ P b) l.
Proof.
  induction 1 as [|a l Hs IH Ha]; intros HP; constructor;
    inversion HP as [|? ? Pa Pl]; subst.
  - apply IH, Pl.
  - rewrite Forall_forall in *. intros b Hb. auto.
Qed.

Lemma knn_ascending (data query : list float) (n nq d k i : nat) :
  all_finite data -> all_finite query -> (1 <= d)%nat -> (i < nq)%nat ->
  ascending
    (block (Nat.min k n) i
       (out_neighbor_distances (run_knn data query n nq d k))).
Proof.
  intros Hd Hq H1 Hi.
  destruct (knn_block data query n nq d k i H1 Hi) as [_ E].
  unfold ascending. rewrite E.
  destruct (knn_result_sorted data query n d k i Hd Hq) as [Hs _].
  assert (HP : Forall (fun c => distance32 (distance c))
                 (knn_result data query n d k i)).
  { apply Forall_forall. intros c Hc.
    destruct (knn_result_in data query n d k i c Hc) as [j [_ [_ ->]]].
    unfold dist_to. apply sqdist_distance32; assumption. }
  apply (StronglySorted_map _ _ _ _
           (fun a b (H : nle a b /\
                         distance32 (distance a) /\
                         distance32 (distance b)) =>
              c_sqrt_mono (distance a) (distance b)
                (proj1 (proj2 H)) (proj2 (proj2 H)) (proj1 H))).
  apply StronglySorted_with; assumption.
Qed.

(** * What a call leaves in the caller's memory *)

Module InMemoryFacts.

Lemma emit_loop_frame {T : Type} (f : T -> Z) (g : T -> float)
    (l : list T) :
  forall (m : InMemory.memory) (oi od : Z),
    let r := fold_left (fun st c => InMemory.emit st (f c) (g c)) l
               (m, oi, od) in
    snd (fst r) = oi + Z.of_nat (length l) /\
    snd r = od + Z.of_nat (length l) /\
    (forall a, ~ (od <= a < od + Z.of_nat (length l)) ->
       InMemory.floats (fst (fst r)) a = InMemory.floats m a).
Proof.
  induction l as [| c l IH]; intros m oi od.
  - simpl. repeat split; lia.
  - cbn [fold_left InMemory.emit].
    destruct (IH (InMemory.store_float (InMemory.store_int m oi (f c)) od
                    (g c))
                (oi + 1) (od + 1)) as [H1 [H2 H3]].
    cbn zeta in *. cbn [length]. split; [lia |]. split; [lia |].
    intros a Ha. rewrite H3 by lia. simpl.
    destruct (Z.eqb_spec a od) as [-> | _]; [lia | reflexivity].
Qed.




Section Knn.

Variable kdtree : Type.
Variable kdtree_init :
  InMemory.memory -> Z -> list Z -> Z -> Z -> InMemory.memory * kdtree.
Variable kdtree_find_knn :
  InMemory.memory -> kdtree -> Z -> list kdtree_neighbor -> Z ->
  InMemory.memory * (list kdtree_neighbor * nat).
Variable kdtree_free : InMemory.memory -> kdtree -> InMemory.memory.

Hypothesis init_reads :
  forall m p idx n d a,
    InMemory.floats (fst (kdtree_init m p idx n d)) a = InMemory.floats m a.
Hypothesis free_reads :
  forall m t a, InMemory.floats (kdtree_free m t) a = InMemory.floats m a.
Hypothesis find_reads :
  forall m t q nb k a,
    InMemory.floats (fst (kdtree_find_knn m t q nb k)) a =
    InMemory.floats m a.
Hypothesis find_at_most :
  forall m t q nb k,
    (snd (snd (kdtree_find_knn m t q nb k)) <= Z.to_nat k)%nat.




End Knn.



(** ** Buffers that do not overlap *)

Lemma fold_left_ext_in {A B : Type} (f g : A -> B -> A) (l : list B) :
  (forall a x, In x l -> f a x = g a x) ->
  forall a, fold_left f l a = fold_left g l a.
Proof.
  induction l as [| x l IH]; intros H a; simpl; [reflexivity |].
  rewrite H by now left. apply IH. intros a' y Hy. apply H. now right.
Qed.

Lemma aget_read (m : InMemory.memory) (p : Z) (len c : nat) :
  (c < len)%nat ->
  aget f0 (InMemory.read m p len) c = InMemory.floats m (p + Z.of_nat c).
Proof.
  intros Hc. unfold aget, InMemory.read.
  set (at_offset := fun c => InMemory.floats m (p + Z.of_nat c)).
  rewrite (nth_indep _ f0 (at_offset O))
    by (rewrite length_map, length_seq; exact Hc).
  rewrite map_nth, seq_nth by exact Hc. reflexivity.
Qed.

Lemma read_store_float (m : InMemory.memory) (p : Z) (len : nat)
    (v : float) :
  InMemory.read (InMemory.store_float m (p + Z.of_nat len) v) p (S len) =
  InMemory.read m p len ++ [v].
Proof.
  unfold InMemory.read. rewrite seq_S, map_app. simpl. f_equal.
  - apply map_ext_in. intros c Hc. apply in_seq in Hc.
    destruct (Z.eqb_spec (p + Z.of_nat c) (p + Z.of_nat len)); [lia |].
    reflexivity.
  - now rewrite Z.eqb_refl.
Qed.

Lemma read_ints_store_int (m : InMemory.memory) (p : Z) (len : nat)
    (v : Z) :
  InMemory.read_ints (InMemory.store_int m (p + Z.of_nat len) v) p (S len) =
  InMemory.read_ints m p len ++ [v].
Proof.
  unfold InMemory.read_ints. rewrite seq_S, map_app. simpl. f_equal.
  - apply map_ext_in. intros c Hc. apply in_seq in Hc.
    destruct (Z.eqb_spec (p + Z.of_nat c) (p + Z.of_nat len)); [lia |].
    reflexivity.
  - now rewrite Z.eqb_refl.
Qed.

Lemma emit_loop_stores {T : Type} (f : T -> Z) (g : T -> float)
    (l : list T) :
  forall (m : InMemory.memory) (oi od : Z) (len : nat),
    let r := fold_left (fun st c => InMemory.emit st (f c) (g c)) l
               (m, oi + Z.of_nat len, od + Z.of_nat len) in
    InMemory.read (fst (fst r)) od (len + length l) =
      InMemory.read m od len ++ map g l /\
    InMemory.read_ints (fst (fst r)) oi (len + length l) =
      InMemory.read_ints m oi len ++ map f l.
Proof.
  induction l as [| c l IH]; intros m oi od len.
  - simpl. rewrite Nat.add_0_r, !app_nil_r. split; reflexivity.
  - cbn [fold_left InMemory.emit].
    replace (oi + Z.of_nat len + 1) with (oi + Z.of_nat (S len)) by lia.
    replace (od + Z.of_nat len + 1) with (od + Z.of_nat (S len)) by lia.
    destruct (IH (InMemory.store_float
                    (InMemory.store_int m (oi + Z.of_nat len) (f c))
                    (od + Z.of_nat len) (g c)) oi od (S len)) as [H1 H2].
    cbn zeta in *. cbn [length map].
    rewrite Nat.add_succ_r. cbn [Nat.add] in H1, H2.
    rewrite H1, H2, read_store_float.
    change (InMemory.read_ints (InMemory.store_float ?m ?a ?v) oi (S len))
      with (InMemory.read_ints m oi (S len)).
    rewrite read_ints_store_int.
    change (InMemory.read
              (InMemory.store_int m (oi + Z.of_nat len) (f c)) od len)
      with (InMemory.read m od len).
    rewrite <- !app_assoc. split; reflexivity.
Qed.

Section Calls.

Variable m0 : InMemory.memory.
Variables p_data p_query p_indices p_distances : Z.
Variables n nq d k : nat.

Hypothesis outputs_apart :
  forall a,
    p_data <= a < p_data + Z.of_nat (n * d) \/
    p_query <= a < p_query + Z.of_nat (nq * d) ->
    ~ (p_distances <= a < p_distances + Z.of_nat (nq * k)).

Lemma sqdist_on_buffers (m : InMemory.memory) (i j : nat) :
  same_points m0 p_data p_query n nq d m -> (i < nq)%nat -> (j < n)%nat ->
  InMemory.sqdist m (p_query + Z.of_nat i * Z.of_nat d)
    (p_data + Z.of_nat j * Z.of_nat d) d =
  sqdist (InMemory.read m0 p_query (nq * d)) (i * d)
    (InMemory.read m0 p_data (n * d)) (j * d) d.
Proof.
  intros Hm Hi Hj. unfold InMemory.sqdist, sqdist.
  apply fold_left_ext_in. intros dist c Hc. apply in_seq in Hc.
  assert (Hq : (i * d + c < nq * d)%nat) by nia.
  assert (Hd : (j * d + c < n * d)%nat) by nia.
  rewrite !aget_read by assumption.
  rewrite <- !Hm by lia.
  replace (p_query + Z.of_nat (i * d + c))
    with (p_query + Z.of_nat i * Z.of_nat d + Z.of_nat c) by lia.
  replace (p_data + Z.of_nat (j * d + c))
    with (p_data + Z.of_nat j * Z.of_nat d + Z.of_nat c) by lia.
  reflexivity.
Qed.

Lemma scan_on_buffers (m : InMemory.memory) (i : nat) :
  same_points m0 p_data p_query n nq d m -> (i < nq)%nat ->
  fold_left
    (InMemory.scan_point m p_data (p_query + Z.of_nat i * Z.of_nat d) d k)
    (seq 0 n) (init_indices k, init_distances k) =
  scan_query (InMemory.read m0 p_data (n * d))
    (InMemory.read m0 p_query (nq * d)) n d k i.
Proof.
  intros Hm Hi. unfold scan_query. apply fold_left_ext_in.
  intros st j Hj. apply in_seq in Hj.
  unfold InMemory.scan_point, scan_point. cbn zeta.
  rewrite sqdist_on_buffers by (assumption || lia). reflexivity.
Qed.

Lemma naive_fold_on_buffers (q : nat) :
  (q <= nq)%nat ->
  let r := fold_left (InMemory.naive_query p_data p_query n d k) (seq 0 q)
             (m0, p_indices, p_distances) in
  let b := fold_left (naive_query n d k) (seq 0 q)
             (inputs (InMemory.read m0 p_data (n * d))
                (InMemory.read m0 p_query (nq * d))) in
  snd (fst r) = p_indices + Z.of_nat (q * k) /\
  snd r = p_distances + Z.of_nat (q * k) /\
  same_points m0 p_data p_query n nq d (fst (fst r)) /\
  data_points b = InMemory.read m0 p_data (n * d) /\
  query_points b = InMemory.read m0 p_query (nq * d) /\
  InMemory.read (fst (fst r)) p_distances (q * k) =
    out_neighbor_distances b /\
  InMemory.read_ints (fst (fst r)) p_indices (q * k) =
    out_neighbor_indices b.
Proof.
  induction q as [| q IH]; intros Hq.
  - simpl. repeat split; lia.
  - destruct (IH ltac:(lia)) as [P1 [P2 [P3 [P4 [P5 [P6 P7]]]]]].
    clear IH. cbn zeta in *. rewrite seq_S, !fold_left_app. simpl Nat.add.
    cbn [fold_left].
    destruct (fold_left (InMemory.naive_query p_data p_query n d k)
                (seq 0 q) (m0, p_indices, p_distances))
      as [[m1 oi1] od1].
    cbn [fst snd] in *. subst oi1 od1.
    set (b := fold_left (naive_query n d k) (seq 0 q) _) in *.
    unfold InMemory.naive_query, naive_query. cbn [fst snd].
    rewrite P4, P5, scan_on_buffers by (assumption || lia).
    set (s := scan_query _ _ n d k q).
    rewrite emit_loop.
    cbn [data_points query_points out_neighbor_indices
         out_neighbor_distances].
    destruct (emit_loop_frame
                (fun c => aget 0 (fst s) c) (fun c => aget f0 (snd s) c)
                (seq 0 k) m1 (p_indices + Z.of_nat (q * k))
                (p_distances + Z.of_nat (q * k)))
      as [F1 [F2 F3]].
    destruct (emit_loop_stores
                (fun c => aget 0 (fst s) c) (fun c => aget f0 (snd s) c)
                (seq 0 k) m1 p_indices p_distances (q * k)) as [S1 S2].
    cbn zeta in *. rewrite length_seq in *.
    replace (S q * k)%nat with (q * k + k)%nat by lia.
    rewrite F1, F2, S1, S2, P4, P5, P6, P7.
    repeat split; try lia.
    intros a Ha. rewrite F3; [apply P3, Ha |].
    pose proof (outputs_apart a Ha) as Hout. nia.
Qed.

(** When the output slots lie outside the coordinate buffers, [naive_knn]
    on pointers leaves in them what [naive_knn] on four separate buffers
    stores, run on the coordinates the call started with. *)
Lemma naive_knn_on_buffers :
  let m := InMemory.naive_knn m0 p_data p_query p_indices p_distances
             (Z.of_nat n) (Z.of_nat nq) (Z.of_nat d) (Z.of_nat k) in
  let b := run_naive (InMemory.read m0 p_data (n * d))
             (InMemory.read m0 p_query (nq * d)) n nq d k in
  InMemory.read m p_distances (nq * k) = out_neighbor_distances b /\
  InMemory.read_ints m p_indices (nq * k) = out_neighbor_indices b.
Proof.
  cbn zeta. unfold InMemory.naive_knn, run_naive, naive_knn.
  rewrite !Nat2Z.id.
  destruct (naive_fold_on_buffers nq (le_n nq)) as [_ [_ [_ [_ [_ H]]]]].
  exact H.
Qed.

End Calls.

End InMemoryFacts.

(** * Distances that are real numbers *)




(** * No coordinate at all *)

Lemma knn_result_dimension_zero (data query : list float) (n k i : nat) :
  knn_result data query n 0 k i = [].
Proof.
  unfold knn_result, found, SpatialIndex.kdtree_init. simpl.
  now rewrite orb_true_r.
Qed.

Lemma run_knn_dimension_zero (data query : list float) (n nq k : nat) :
  out_neighbor_distances (run_knn data query n nq 0 k) = [].
Proof.
  unfold run_knn. rewrite knn_kdtree_spec. cbn [out_neighbor_distances].
  induction (seq 0 nq) as [| i l IH]; [reflexivity |]. simpl.
  now rewrite knn_result_dimension_zero.
Qed.

Lemma block_nil {A : Type} (k i : nat) : block k i (@nil A) = [].
Proof. unfold block. now rewrite skipn_nil, firstn_nil. Qed.

(** * The scan on any coordinates *)

(** What follows holds of every input, NaN and infinite coordinates
    included. *)


Lemma count_below_S (data query : list float) (n d i : nat) :
  count_below data query (S n) d i =
  (count_below data query n d i +
   if fle f1e10 (dist_to data query d i n) then 0 else 1)%nat.
Proof.
  unfold count_below. rewrite seq_S, filter_app, length_app. simpl.
  destruct (fle f1e10 (dist_to data query d i n)); reflexivity.
Qed.

(** The slots hold data points first and sentinels behind them, one
    sentinel less for every data point below [1e10f], until none is
    left. *)
Lemma naive_result_sentinels (data query : list float) (n d k i : nat) :
  exists reals : list candidate,
    naive_result data query n d k i =
      reals ++
      repeat sentinel (k - Nat.min k (count_below data query n d i)) /\
    length reals = Nat.min k (count_below data query n d i) /\
    Forall (fun c => exists j, (j < n)%nat /\ c = cand data query d i j)
      reals.
Proof.
  induction n as [| n [reals [E [Hl Hr]]]].
  - exists []. simpl. rewrite Nat.min_0_r, Nat.sub_0_r.
    repeat split. constructor.
  - rewrite naive_result_S, E, count_below_S.
    set (c := count_below data query n d i) in *.
    set (x := cand data query d i n).
    assert (Hx : Forall
              (fun c => exists j, (j < S n)%nat /\ c = cand data query d i j)
              (place x reals)).
    { apply Forall_forall. intros y Hy.
      apply (Permutation_in _ (place_perm _ _)) in Hy.
      destruct Hy as [<- | Hy]; [exists n; split; [lia | reflexivity] |].
      rewrite Forall_forall in Hr. destruct (Hr y Hy) as [j [Hj ->]].
      exists j. split; [lia | reflexivity]. }
    assert (Hr' : Forall
              (fun c => exists j, (j < S n)%nat /\ c = cand data query d i j)
              reals).
    { apply Forall_forall. intros y Hy.
      rewrite Forall_forall in Hr. destruct (Hr y Hy) as [j [Hj ->]].
      exists j. split; [lia | reflexivity]. }
    assert (Ex : cle sentinel x = fle f1e10 (dist_to data query d i n))
      by reflexivity.
    destruct (fle f1e10 (dist_to data query d i n)).
    + rewrite Nat.add_0_r.
      destruct (Nat.le_gt_cases k c) as [Hk | Hk].
      * replace (k - Nat.min k c)%nat with O by lia. simpl repeat.
        rewrite app_nil_r.
        exists (firstn k (place x reals)). rewrite app_nil_r.
        repeat split.
        -- rewrite length_firstn, place_length. lia.
        -- apply Forall_forall. intros y Hy. apply in_firstn in Hy.
           rewrite Forall_forall in Hx. apply Hx, Hy.
      * exists reals. repeat split; [| exact Hl | exact Hr'].
        destruct (k - Nat.min k c)%nat as [| m] eqn:Em; [lia |].
        assert (Hc : reals ++ repeat sentinel (S m) =
                     (reals ++ repeat sentinel m) ++ [sentinel])
          by (simpl repeat; rewrite repeat_cons, app_assoc; reflexivity).
        rewrite Hc, place_snoc_le by exact Ex.
        change [sentinel; x] with ([sentinel] ++ [x]).
        rewrite app_assoc, firstn_app.
        replace (k - length ((reals ++ repeat sentinel m) ++ [sentinel]))%nat
          with O
          by (rewrite !length_app, repeat_length; simpl; lia).
        simpl. rewrite app_nil_r.
        apply firstn_all2.
        rewrite !length_app, repeat_length; simpl; lia.
    + rewrite place_behind by exact Ex.
      destruct (Nat.le_gt_cases k c) as [Hk | Hk].
      * replace (k - Nat.min k c)%nat with O by lia.
        replace (k - Nat.min k (c + 1))%nat with O by lia. simpl repeat.
        rewrite app_nil_r.
        exists (firstn k (place x reals)). rewrite app_nil_r.
        repeat split.
        -- rewrite length_firstn, place_length. lia.
        -- apply Forall_forall. intros y Hy. apply in_firstn in Hy.
           rewrite Forall_forall in Hx. apply Hx, Hy.
      * exists (place x reals). rewrite place_length.
        repeat split; [| lia | exact Hx].
        destruct (k - Nat.min k c)%nat as [| m] eqn:Em; [lia |].
        replace (k - Nat.min k (c + 1))%nat with m by lia.
        simpl repeat. rewrite repeat_cons, app_assoc, firstn_app.
        replace (k - length (place x reals ++ repeat sentinel m))%nat
          with O
          by (rewrite length_app, place_length, repeat_length; lia).
        simpl. rewrite app_nil_r. apply firstn_all2.
        rewrite length_app, place_length, repeat_length. lia.
Qed.



(** * The claims *)

(** C1 (the defect): on one data point [0] and one query [2] with [k = 1],
    over any index whose search finds the data point at its squared
    distance 4, [naive_knn] and [knn] agree on the neighbour index and
    differ on the distance, so the assertion of [test_knn] (tests.c, line
    113) fails: [naive_knn] stores the squared distance 4, [knn] its square
    root 2. *)
Theorem knn_differs_from_naive_knn (kdtree : Type)
    (kdtree_init : list float -> list Z -> Z -> Z -> kdtree)
    (kdtree_find_knn :
       kdtree -> list float -> nat -> list kdtree_neighbor -> Z ->
       list kdtree_neighbor * nat) :
  (forall neighbors : list kdtree_neighbor,
     let found :=
       kdtree_find_knn (kdtree_init [f0] [0] 1 1) [f2] 0%nat neighbors 1 in
     snd found = 1%nat /\
     aget no_neighbor (fst found) 0 = mkNeighbor 0 f4) ->
  let naive := naive_knn (inputs [f0] [f2]) 1 1 1 1 in
  let kd := knn kdtree kdtree_init kdtree_find_knn (inputs [f0] [f2]) 1 1 1 1 in
  out_neighbor_indices naive = [0] /\
  out_neighbor_indices kd = [0] /\
  out_neighbor_distances naive = [f4] /\
  out_neighbor_distances kd = [c_sqrt f4] /\
  c_sqrt f4 = f2 /\
  feq f4 f2 = false.
Proof.
  intros H. cbn zeta.
  repeat split; try (vm_compute; reflexivity).
  - unfold knn. simpl Z.to_nat. simpl seq. simpl map. simpl fold_left.
    unfold knn_query. simpl fst. simpl snd. simpl Nat.mul.
    destruct (H [no_neighbor; no_neighbor]) as [H1 H2].
    cbn zeta in H1, H2. rewrite H1. simpl. rewrite H2. reflexivity.
  - unfold knn. simpl Z.to_nat. simpl seq. simpl map. simpl fold_left.
    unfold knn_query. simpl fst. simpl snd. simpl Nat.mul.
    destruct (H [no_neighbor; no_neighbor]) as [H1 H2].
    cbn zeta in H1, H2. rewrite H1. simpl fold_left. unfold emit.
    simpl out_neighbor_distances. rewrite H2. reflexivity.
Qed.

Lemma knn_differs_from_naive_knn_witness :
  out_neighbor_indices (naive_knn (inputs [f0] [f2]) 1 1 1 1) = [0] /\
  out_neighbor_indices (knn_kdtree (inputs [f0] [f2]) 1 1 1 1) = [0] /\
  out_neighbor_distances (naive_knn (inputs [f0] [f2]) 1 1 1 1) = [f4] /\
  out_neighbor_distances (knn_kdtree (inputs [f0] [f2]) 1 1 1 1) =
    [c_sqrt f4] /\
  c_sqrt f4 = f2 /\
  feq f4 f2 = false.
Proof.
  apply (knn_differs_from_naive_knn SpatialIndex.kdtree
           SpatialIndex.kdtree_init SpatialIndex.kdtree_find_knn).
  intros neighbors. cbn zeta. rewrite kdtree_find_knn_found.
  assert (E : found (SpatialIndex.kdtree_init [f0] [0] 1 1) [f2] 0 1 =
              [mkNeighbor 0 f4]) by (vm_compute; reflexivity).
  rewrite E. split; reflexivity.
Defined.




(** C3, as stated, fails: with no data point and [k = 1], [naive_knn]
    stores one entry for the query, not [min(1, 0) = 0]. *)
Lemma naive_knn_writes_k_entries :
  length (out_neighbor_indices (run_naive [] [f0] 0 1 1 1)) <>
  (1 * Nat.min 1 0)%nat.
Proof. vm_compute. discriminate. Qed.

(** C3, amended: [naive_knn] stores [k] entries per query in each output
    array, [n_query_points * k] in all; [knn] over the spatial index of the
    spec stores [min(k, n)] per query, [n_query_points * min(k, n)] in
    all. *)
Theorem output_lengths (data query : list float) (n nq d k : nat) :
  (1 <= d)%nat ->
  length (out_neighbor_indices (run_naive data query n nq d k)) =
    (nq * k)%nat /\
  length (out_neighbor_distances (run_naive data query n nq d k)) =
    (nq * k)%nat /\
  length (out_neighbor_indices (run_knn data query n nq d k)) =
    (nq * Nat.min k n)%nat /\
  length (out_neighbor_distances (run_knn data query n nq d k)) =
    (nq * Nat.min k n)%nat.
Proof.
  intros Hd. unfold run_naive, run_knn.
  rewrite naive_knn_spec, knn_kdtree_spec. simpl.
  repeat split.
  - rewrite (flat_map_uniform_length _ k), length_seq; [reflexivity |].
    intros x. rewrite length_map. apply naive_result_length.
  - rewrite (flat_map_uniform_length _ k), length_seq; [reflexivity |].
    intros x. rewrite length_map. apply naive_result_length.
  - rewrite (flat_map_uniform_length _ (Nat.min k n)), length_seq;
      [reflexivity |].
    intros x. rewrite length_map. apply knn_result_length, Hd.
  - rewrite (flat_map_uniform_length _ (Nat.min k n)), length_seq;
      [reflexivity |].
    intros x. rewrite length_map. apply knn_result_length, Hd.
Qed.

Lemma output_lengths_witness :
  length (out_neighbor_indices (run_naive [f0; f2; f4] [f2] 3 1 1 5)) = 5%nat /\
  length (out_neighbor_distances (run_naive [f0; f2; f4] [f2] 3 1 1 5)) =
    5%nat /\
  length (out_neighbor_indices (run_knn [f0; f2; f4] [f2] 3 1 1 5)) = 3%nat /\
  length (out_neighbor_distances (run_knn [f0; f2; f4] [f2] 3 1 1 5)) = 3%nat.
Proof.
  apply (output_lengths [f0; f2; f4] [f2] 3 1 1 5). lia.
Defined.

(** C4: in the scan of [naive_knn], a data point whose distance equals the
    distance held in a slot leaves that slot as it is; hence among the
    entries stored for a query, of two with equal distances the earlier one
    has the lower data index (a sentinel, index -1, apart). *)
Theorem naive_knn_ties (data query : list float) (n nq d k i : nat) :
  all_finite data -> all_finite query -> (i < nq)%nat ->
  (forall j p,
     (p < k)%nat ->
     feq (snd (nth p (cands k (scan_query data query j d k i)) sentinel))
         (dist_to data query d i j) = true ->
     nth p (cands k (scan_query data query (S j) d k i)) sentinel =
     nth p (cands k (scan_query data query j d k i)) sentinel) /\
  (forall p q,
     (p < q)%nat -> (q < k)%nat ->
     let a := nth p (neighbors k i (run_naive data query n nq d k)) sentinel in
     let b := nth q (neighbors k i (run_naive data query n nq d k)) sentinel in
     feq (snd a) (snd b) = true -> fst b <> -1 -> fst a < fst b).
Proof.
  intros Hd Hq Hi. split.
  - intros j p Hp He.
    destruct (scan_query_cands data query j d k i) as [_ [_ E1]].
    destruct (scan_query_cands data query (S j) d k i) as [_ [_ E2]].
    cbn zeta in *. rewrite E1 in *. rewrite E2.
    apply naive_result_keeps; try assumption.
    apply feq_fle in He. apply He.
  - intros p q Hpq Hqk. cbn zeta.
    rewrite naive_neighbors by exact Hi.
    destruct (naive_result_ties data query n d k i Hd Hq) as [Hs _].
    pose proof (StronglySorted_nth tie_rel _ sentinel Hs p q Hpq) as H.
    rewrite naive_result_length in H. specialize (H Hqk).
    destruct H as [_ H]. intros He Hb.
    apply feq_fle in He. destruct He as [_ He].
    destruct (H He) as [H1|H1]; [exact H1 | contradiction].
Qed.

Lemma naive_knn_ties_witness :
  (forall j p,
     (p < 2)%nat ->
     feq (snd (nth p (cands 2 (scan_query [f0; f2; f4] [f2] j 1 2 0))
                 sentinel))
         (dist_to [f0; f2; f4] [f2] 1 0 j) = true ->
     nth p (cands 2 (scan_query [f0; f2; f4] [f2] (S j) 1 2 0)) sentinel =
     nth p (cands 2 (scan_query [f0; f2; f4] [f2] j 1 2 0)) sentinel) /\
  (forall p q,
     (p < q)%nat -> (q < 2)%nat ->
     let a := nth p (neighbors 2 0 (run_naive [f0; f2; f4] [f2] 3 1 1 2))
                sentinel in
     let b := nth q (neighbors 2 0 (run_naive [f0; f2; f4] [f2] 3 1 1 2))
                sentinel in
     feq (snd a) (snd b) = true -> fst b <> -1 -> fst a < fst b).
Proof.
  apply (naive_knn_ties [f0; f2; f4] [f2] 3 1 1 2 0).
  - exact three_points_finite.
  - exact one_query_finite.
  - lia.
Defined.

(** C5 (the defect): on one data point [0] and one query [2], the squared
    distance is 4 and the Euclidean distance is [sqrt 4 = 2]; [knn] stores
    2, and [naive_knn] stores 4: lines 64-67 of tests.c copy the squared
    distance out without the square root of knn.c, line 39. *)
Theorem naive_knn_stores_squared_distance :
  dist_to [f0] [f2] 1 0 0 = f4 /\
  c_sqrt f4 = f2 /\
  out_neighbor_distances (run_knn [f0] [f2] 1 1 1 1) =
    [c_sqrt (dist_to [f0] [f2] 1 0 0)] /\
  out_neighbor_distances (run_naive [f0] [f2] 1 1 1 1) =
    [dist_to [f0] [f2] 1 0 0] /\
  dist_to [f0] [f2] 1 0 0 <> c_sqrt (dist_to [f0] [f2] 1 0 0).
Proof.
  repeat split; try (vm_compute; reflexivity).
  vm_compute. discriminate.
Qed.

(** C6, as stated, fails: with a NaN coordinate in one of three data
    points, [naive_knn] stores the distances 0, NaN, 4; with the coordinate
    plus infinity in the query and in the data point it stores NaN, 1e10;
    and over the spatial index of the spec [knn] stores a NaN among the two
    distances of the data points NaN and 0.  A NaN is [<=] nothing and
    nothing is [<=] a NaN. *)
Lemma distances_not_ascending :
  ~ ascending
      (block 3 0
         (out_neighbor_distances (run_naive [f2; nan; f0] [f0] 3 1 1 3))) /\
  ~ ascending
      (block 2 0
         (out_neighbor_distances (run_naive [infinity] [infinity] 1 1 1 2))) /\
  ~ ascending
      (block (Nat.min 2 2) 0
         (out_neighbor_distances (run_knn [nan; f0] [f0] 2 1 1 2))).
Proof.
  split; [| split]; intros H; vm_compute in H.
  - inversion H as [| a l _ F]; subst. inversion F as [| b l' Hb _]; subst.
    discriminate.
  - inversion H as [| a l _ F]; subst. inversion F as [| b l' Hb _]; subst.
    discriminate.
  - inversion H as [| a l _ F]; subst. inversion F as [| b l' Hb _]; subst.
    discriminate.
Qed.

(** C6, amended: for finite coordinates, the distances stored for one query
    are non-decreasing from the first entry to the last, in the output of
    [naive_knn] ([k] entries per query) and in the output of [knn] over the
    spatial index of the spec ([min(k, n)] entries per query, each the
    square root of a squared distance). *)
Theorem distances_ascending (data query : list float) (n nq d k i : nat) :
  all_finite data -> all_finite query -> (i < nq)%nat ->
  ascending
    (block k i (out_neighbor_distances (run_naive data query n nq d k))) /\
  ascending
    (block (Nat.min k n) i
       (out_neighbor_distances (run_knn data query n nq d k))).
Proof.
  intros Hd Hq Hi. split.
  - apply naive_knn_ascending; assumption.
  - destruct d as [| d].
    + rewrite run_knn_dimension_zero, block_nil. constructor.
    + apply knn_ascending; try assumption. lia.
Qed.

Lemma distances_ascending_witness :
  ascending
    (block 2 0
       (out_neighbor_distances (run_naive [f0; f2; f4] [f2] 3 1 1 2))) /\
  ascending
    (block (Nat.min 2 3) 0
       (out_neighbor_distances (run_knn [f0; f2; f4] [f2] 3 1 1 2))).
Proof.
  apply (distances_ascending [f0; f2; f4] [f2] 3 1 1 2 0).
  - exact three_points_finite.
  - exact one_query_finite.
  - lia.
Defined.







(** C9: with more slots than data points, [naive_knn] still stores [k]
    entries per query, and the last [k - n] of them are the sentinels the
    working arrays were initialised with: index -1, distance [1e10f]. *)
Theorem naive_knn_trailing_sentinels (data query : list float)
    (n nq d k i : nat) :
  (n < k)%nat -> (i < nq)%nat ->
  length (out_neighbor_indices (run_naive data query n nq d k)) =
    (nq * k)%nat /\
  length (out_neighbor_distances (run_naive data query n nq d k)) =
    (nq * k)%nat /\
  length (block k i (out_neighbor_indices (run_naive data query n nq d k))) =
    k /\
  skipn n (block k i (out_neighbor_indices (run_naive data query n nq d k))) =
    repeat (-1) (k - n) /\
  skipn n
    (block k i (out_neighbor_distances (run_naive data query n nq d k))) =
    repeat f1e10 (k - n).
Proof.
  intros Hn Hi.
  destruct (naive_knn_block data query n nq d k i Hi) as [H1 H2].
  cbn zeta in *. unfold run_naive. rewrite H1, H2.
  rewrite naive_knn_spec. simpl.
  destruct (naive_result_shape data query n d k i) as [reals [m [E [Hr Hk]]]].
  repeat split.
  - rewrite (flat_map_uniform_length _ k), length_seq; [reflexivity |].
    intros x. rewrite length_map. apply naive_result_length.
  - rewrite (flat_map_uniform_length _ k), length_seq; [reflexivity |].
    intros x. rewrite length_map. apply naive_result_length.
  - rewrite length_map. apply naive_result_length.
  - rewrite E, map_app, skipn_app, length_map.
    rewrite skipn_all2 by (rewrite length_map; exact Hr).
    rewrite map_repeat, skipn_repeat. simpl. f_equal. lia.
  - rewrite E, map_app, skipn_app, length_map.
    rewrite skipn_all2 by (rewrite length_map; exact Hr).
    rewrite map_repeat, skipn_repeat. simpl. f_equal. lia.
Qed.

Lemma naive_knn_trailing_sentinels_witness :
  length (out_neighbor_indices (run_naive [f0; f2; f4] [f2] 3 1 1 5)) =
    (1 * 5)%nat /\
  length (out_neighbor_distances (run_naive [f0; f2; f4] [f2] 3 1 1 5)) =
    (1 * 5)%nat /\
  length (block 5 0
            (out_neighbor_indices (run_naive [f0; f2; f4] [f2] 3 1 1 5))) =
    5%nat /\
  skipn 3
    (block 5 0 (out_neighbor_indices (run_naive [f0; f2; f4] [f2] 3 1 1 5))) =
    repeat (-1) (5 - 3) /\
  skipn 3
    (block 5 0
       (out_neighbor_distances (run_naive [f0; f2; f4] [f2] 3 1 1 5))) =
    repeat f1e10 (5 - 3).
Proof.
  apply (naive_knn_trailing_sentinels [f0; f2; f4] [f2] 3 1 1 5 0); lia.
Defined.

(** C10, as stated, fails: with a NaN coordinate in data point 0, the slot
    takes the NaN, and data point 1 at squared distance 1e12 then passes
    it, since [NaN <= 1e12] is false: index 1 is returned.  The same
    happens at the squared distance plus infinity when the query and data
    point 0 hold the coordinate plus infinity. *)
Lemma naive_knn_returns_far_point :
  (fle f1e10 (dist_to [nan; f1e6] [f0] 1 0 1) = true /\
   In 1 (block 1 0
           (out_neighbor_indices (run_naive [nan; f1e6] [f0] 2 1 1 1)))) /\
  (fle f1e10 (dist_to [infinity; f1e6] [infinity] 1 0 1) = true /\
   In 1 (block 1 0
           (out_neighbor_indices
              (run_naive [infinity; f1e6] [infinity] 2 1 1 1)))).
Proof.
  repeat split; vm_compute; auto.
Qed.

(** C10, amended: for finite coordinates, a data point whose squared
    distance to the query is [>= 1e10f] is never among the entries
    [naive_knn] stores for that query; and on every input, when [c] data
    points have a squared distance for which [1e10f <= distance] is false,
    the entries from position [min(k, c)] on are sentinels. *)
Theorem naive_knn_far_points_excluded (data query : list float)
    (n nq d k i : nat) :
  (i < nq)%nat ->
  (all_finite data -> all_finite query ->
   forall j,
     (j < n)%nat -> fle f1e10 (dist_to data query d i j) = true ->
     ~ In (Z.of_nat j)
         (block k i (out_neighbor_indices (run_naive data query n nq d k)))) /\
  skipn (Nat.min k (count_below data query n d i))
    (neighbors k i (run_naive data query n nq d k)) =
  repeat sentinel (k - Nat.min k (count_below data query n d i)).
Proof.
  intros Hi. split.
  - intros Hd Hq j Hj Hfar Hin.
    destruct (naive_knn_block data query n nq d k i Hi) as [H1 _].
    cbn zeta in H1. unfold run_naive in Hin. rewrite H1 in Hin.
    apply in_map_iff in Hin. destruct Hin as [c [Ec Hc]].
    destruct (naive_result_index data query n d k i c Hd Hq Hc)
      as [->|[j' [Hj' [-> Hb]]]].
    + simpl in Ec. lia.
    + simpl in Ec. apply Nat2Z.inj in Ec. subst j'.
      unfold below, cand in Hb. simpl in Hb. rewrite Hfar in Hb.
      discriminate.
  - rewrite naive_neighbors by exact Hi.
    destruct (naive_result_sentinels data query n d k i)
      as [reals [E [Hl _]]].
    rewrite E, skipn_app, <- Hl, skipn_all, Nat.sub_diag. reflexivity.
Qed.

Lemma naive_knn_far_points_excluded_witness :
  (forall j,
     (j < 2)%nat -> fle f1e10 (dist_to [f0; f1e6] [f0] 1 0 j) = true ->
     ~ In (Z.of_nat j)
         (block 2 0
            (out_neighbor_indices (run_naive [f0; f1e6] [f0] 2 1 1 2)))) /\
  skipn (Nat.min 2 (count_below [f0; f1e6] [f0] 2 1 0))
    (neighbors 2 0 (run_naive [f0; f1e6] [f0] 2 1 1 2)) =
  repeat sentinel (2 - Nat.min 2 (count_below [f0; f1e6] [f0] 2 1 0)).
Proof.
  destruct (naive_knn_far_points_excluded [f0; f1e6] [f0] 2 1 1 2 0)
    as [H1 H2]; [lia |].
  split; [| exact H2].
  exact (H1 far_point_finite origin_query_finite).
Defined.
